(** * tweet-server: the ingest, dedupe, transform and persist pipeline

    A shallow embedding of [src/index.js].  The file holds two variants of
    the same server: the first one (lines 1-541) is embedded in module
    [Index], the second one, whose header reads FINAL COMPLETE SERVER.JS
    (lines 542-995), in module [Final].

    JavaScript values are embedded as a data type of JSON-like values,
    exceptions as a [completion] type, and the asynchronous handlers as
    computations in a state-and-exception monad whose state holds the
    outside world, the module-level [processedTweetCache] and a log of the
    calls made to the external collaborators (the generative-text service,
    the tweet API and the article store).  A handler that returns a reply
    has answered the request; one that raises has left it unanswered.

    Console output is left out, and with it the template literals that are
    only logged.  The conversion of a value to a string is embedded as a
    total function (see [to_string]): it is exact on strings and on the
    other values that are neither objects nor arrays, and the statements
    that depend on the conversion of an id, a text or an instruction of a
    request body are made for these.  A character of a [string] is a byte
    of the UTF-8 text.

    Also left out are the listing of articles and the check of the
    environment at startup.  The scheduled job and its manual trigger call
    the server's own author route over HTTP: the request is embedded as a
    computation on the state of the process, which it may change (module
    [Cron]).  The policy on origins is in module [Cors]. *)

From Stdlib Require Import ZArith QArith Qcanon Ascii String.
From stdpp Require Import base tactics option list strings gmap fin_maps pretty.

Local Open Scope Z_scope.
Local Open Scope string_scope.

(** ** JavaScript values *)

(** Numbers: the finite doubles are rationals; the two zeros are identified,
    which is what truthiness and [Map] key comparison do as well. *)
Inductive number :=
| Finite (q : Qc)
| Infinite (negative : bool)
| NaN.

Definition number_of_Z (z : Z) : number := Finite (Q2Qc (inject_Z z)).
Definition number_of_nat (n : nat) : number := number_of_Z (Z.of_nat n).

#[local] Set Warnings "-register-all".
Inductive value :=
| VUndefined
| VNull
| VBool (b : bool)
| VNum (n : number)
| VStr (s : string)
| VArr (items : list value)
| VObj (fields : list (string * value)).

(** A thrown [Error]: its [message] and, for store errors, its [code]. *)
Record error := Error { message : string; code : option Z }.

Definition mkError (msg : string) : error := Error msg None.
Definition TypeError (msg : string) : error := Error msg None.

Inductive completion (A : Type) :=
| Return (a : A)
| Throw (e : error).
Arguments Return {A} a.
Arguments Throw {A} e.

(** [!!v] *)
Definition truthy (v : value) : bool :=
  match v with
  | VUndefined | VNull => false
  | VBool b => b
  | VNum (Finite q) => negb (bool_decide (q = Q2Qc 0))
  | VNum (Infinite _) => true
  | VNum NaN => false
  | VStr s => negb (bool_decide (s = ""))
  | VArr _ | VObj _ => true
  end.

Definition nullish (v : value) : bool :=
  match v with
  | VUndefined | VNull => true
  | _ => false
  end.

Definition type_name (v : value) : string :=
  match v with
  | VNull => "null"
  | _ => "undefined"
  end.

Fixpoint field (k : string) (fields : list (string * value)) : value :=
  match fields with
  | [] => VUndefined
  | (k', v) :: rest => if bool_decide (k' = k) then v else field k rest
  end.

(** [v.k] for a property name [k]: a read on [undefined] or [null] throws,
    a missing property is [undefined]; arrays and strings have [length]. *)
Definition get (v : value) (k : string) : completion value :=
  match v with
  | VUndefined | VNull =>
      Throw (TypeError ("Cannot read properties of " +:+ type_name v +:+
                        " (reading '" +:+ k +:+ "')"))
  | VObj fields => Return (field k fields)
  | VArr items =>
      Return (if bool_decide (k = "length")
              then VNum (number_of_nat (length items)) else VUndefined)
  | VStr s =>
      Return (if bool_decide (k = "length")
              then VNum (number_of_nat (String.length s)) else VUndefined)
  | _ => Return VUndefined
  end.

(** [v?.k] *)
Definition get_opt (v : value) (k : string) : value :=
  match get v k with
  | Return x => x
  | Throw _ => VUndefined
  end.

(** [v[0]] *)
Definition first (v : value) : completion value :=
  match v with
  | VUndefined | VNull =>
      Throw (TypeError ("Cannot read properties of " +:+ type_name v +:+
                        " (reading '0')"))
  | VArr items => Return (default VUndefined (head items))
  | VObj fields => Return (field "0" fields)
  | VStr (String c _) => Return (VStr (String c ""))
  | _ => Return VUndefined
  end.

(** [v?.[0]] *)
Definition first_opt (v : value) : value :=
  match first v with
  | Return x => x
  | Throw _ => VUndefined
  end.

(** [a ?? b] and [a || b] *)
Definition coalesce (a b : value) : value := if nullish a then b else a.
Definition or_else (a b : value) : value := if truthy a then a else b.

Definition isArray (v : value) : bool :=
  match v with
  | VArr _ => true
  | _ => false
  end.

(** A value that is neither an object nor an array. *)
Definition primitive (v : value) : bool :=
  match v with
  | VArr _ | VObj _ => false
  | _ => true
  end.

(** [v === "s"] *)
Definition is_string (v : value) (s : string) : bool :=
  match v with
  | VStr s' => bool_decide (s' = s)
  | _ => false
  end.

(** [v === 0] *)
Definition is_zero (v : value) : bool :=
  match v with
  | VNum (Finite q) => bool_decide (q = Q2Qc 0)
  | _ => false
  end.

(** Whether a byte of a UTF-8 text continues a code point: [10xxxxxx]. *)
Definition continuation (c : ascii) : bool :=
  match c with
  | Ascii _ _ _ _ _ _ b6 b7 => b7 && negb b6
  end.

(** The code points of a string, one string each, as [for...of] visits
    them: a byte that continues nothing, with the continuation bytes that
    follow it.  [c] is the first byte of the code point being read and [cur]
    holds its other bytes, last one first. *)
Fixpoint chars_from (c : ascii) (cur : string) (s : string) : list value :=
  match s with
  | EmptyString => [VStr (String c (String.rev cur))]
  | String d rest =>
      if continuation d then chars_from c (String d cur) rest
      else VStr (String c (String.rev cur)) :: chars_from d "" rest
  end.

Definition chars (s : string) : list value :=
  match s with
  | EmptyString => []
  | String c rest => chars_from c "" rest
  end.

(** The items a [for (const x of v)] loop visits; [what] is the expression
    iterated, which the TypeError names. *)
Definition iterate (what : string) (v : value) : completion (list value) :=
  match v with
  | VArr items => Return items
  | VStr s => Return (chars s)
  | _ => Throw (TypeError (what +:+ " is not iterable"))
  end.

(** [delete v.k] *)
Definition delete_field (k : string) (v : value) : completion value :=
  match v with
  | VUndefined | VNull =>
      Throw (TypeError "Cannot convert undefined or null to object")
  | VObj fields => Return (VObj (filter (λ kv, kv.1 ≠ k) fields))
  | _ => Return v
  end.

(** ** Strings *)

(** [s.slice(0, n)], which counts code units: the embedding counts the
    characters of the string, and is exact when the string is no longer
    than [n] or its first [n] characters are ASCII. *)
Definition slice0 (n : nat) (s : string) : string := String.substring 0 n s.

(** [s.replace(/pat/g, empty)] for a literal, non-empty pattern: [skip] counts
    the characters of a match that are still to be dropped. *)
Fixpoint remove_all_from (pat : string) (skip : nat) (s : string) : string :=
  match s with
  | EmptyString => EmptyString
  | String c rest =>
      match skip with
      | S n => remove_all_from pat n rest
      | O =>
          if String.prefix pat s
          then remove_all_from pat (String.length pat - 1) rest
          else String c (remove_all_from pat 0 rest)
      end
  end.

Definition remove_all (pat s : string) : string := remove_all_from pat 0 s.

(** [s.replace(/p1|p2/g, empty)]: at each position the first alternative that
    matches wins. *)
Fixpoint remove_either_from (p1 p2 : string) (skip : nat) (s : string) : string :=
  match s with
  | EmptyString => EmptyString
  | String c rest =>
      match skip with
      | S n => remove_either_from p1 p2 n rest
      | O =>
          if String.prefix p1 s
          then remove_either_from p1 p2 (String.length p1 - 1) rest
          else if String.prefix p2 s
          then remove_either_from p1 p2 (String.length p2 - 1) rest
          else String c (remove_either_from p1 p2 0 rest)
      end
  end.

Definition remove_either (p1 p2 s : string) : string := remove_either_from p1 p2 0 s.

Definition fence : string := "```".
Definition fence_json : string := "```json".

(** [s.split(",")] *)
Fixpoint split_comma_from (cur : string) (s : string) : list string :=
  match s with
  | EmptyString => [String.rev cur]
  | String c rest =>
      if bool_decide (c = ","%char)
      then String.rev cur :: split_comma_from "" rest
      else split_comma_from (String c cur) rest
  end.

Definition split_comma (s : string) : list string := split_comma_from "" s.

Definition dq : string := String (Ascii.ascii_of_nat 34) "".
Definition nl : string := String (Ascii.ascii_of_nat 10) "".

(** [v.slice(0, n)]: strings and arrays have the method. *)
Definition call_slice0 (n : nat) (v : value) : completion value :=
  match v with
  | VStr s => Return (VStr (slice0 n s))
  | VArr items => Return (VArr (take n items))
  | VUndefined | VNull =>
      Throw (TypeError ("Cannot read properties of " +:+ type_name v +:+
                        " (reading 'slice')"))
  | _ => Throw (TypeError "text.slice is not a function")
  end.

(** The receiver of a string method such as [trim], [replace] or [split]:
    [v] is the value of the expression [receiver], on which [method] is
    called. *)
Definition as_receiver (receiver method : string) (v : value) : completion string :=
  match v with
  | VStr s => Return s
  | VUndefined | VNull =>
      Throw (TypeError ("Cannot read properties of " +:+ type_name v +:+
                        " (reading '" +:+ method +:+ "')"))
  | _ => Throw (TypeError (receiver +:+ "." +:+ method +:+ " is not a function"))
  end.

(** ** Keys of [processedTweetCache]

    A [Map] compares keys by SameValueZero.  Primitive keys are compared by
    value.  An array or object key is compared by reference, and every id
    the server looks up or stores is read from a freshly parsed payload, so
    such a key never meets an entry again: it has no key here, a lookup of it
    finds nothing and storing it changes no later lookup. *)
Inductive key :=
| KUndefined
| KNull
| KBool (b : bool)
| KNum (n : number)
| KStr (s : string).

#[global] Instance number_eq_dec : EqDecision number.
Proof. solve_decision. Defined.

#[global] Instance number_countable : Countable number.
Proof.
  refine (inj_countable'
    (λ n, match n with
          | Finite q => inl q
          | Infinite b => inr (Some b)
          | NaN => inr None
          end)
    (λ x, match x with
          | inl q => Finite q
          | inr (Some b) => Infinite b
          | inr None => NaN
          end) _).
  by intros [].
Defined.

#[global] Instance key_eq_dec : EqDecision key.
Proof. solve_decision. Defined.

#[global] Instance key_countable : Countable key.
Proof.
  refine (inj_countable'
    (λ k, match k with
          | KUndefined => inl (inl false)
          | KNull => inl (inl true)
          | KBool b => inl (inr b)
          | KNum n => inr (inl n)
          | KStr s => inr (inr s)
          end)
    (λ x, match x with
          | inl (inl false) => KUndefined
          | inl (inl true) => KNull
          | inl (inr b) => KBool b
          | inr (inl n) => KNum n
          | inr (inr s) => KStr s
          end) _).
  by intros [].
Defined.

Definition as_key (v : value) : option key :=
  match v with
  | VUndefined => Some KUndefined
  | VNull => Some KNull
  | VBool b => Some (KBool b)
  | VNum n => Some (KNum n)
  | VStr s => Some (KStr s)
  | VArr _ | VObj _ => None
  end.

(** [cache.get(id)]; [None] stands for [undefined]. *)
Definition Map_get (id : value) (cache : gmap key Z) : option Z :=
  k ← as_key id; cache !! k.

(** [cache.set(id, ts)] *)
Definition Map_set (id : value) (ts : Z) (cache : gmap key Z) : gmap key Z :=
  match as_key id with
  | Some k => <[k := ts]> cache
  | None => cache
  end.

Definition CACHE_DURATION_MS : Z := 12 * 60 * 60 * 1000.

(** [cacheEntry && (now - cacheEntry < CACHE_DURATION_MS)]: a stored
    timestamp is a number, truthy unless it is zero. *)
Definition recently (now : Z) (cacheEntry : option Z) : bool :=
  match cacheEntry with
  | None => false
  | Some ts => negb (bool_decide (ts = 0)) && bool_decide (now - ts < CACHE_DURATION_MS)
  end.

(** ** The external collaborators *)

(** The object [fetch] resolves to: [response.ok], [response.status] and
    the outcome of [response.json()]. *)
Record Response := { ok : bool; status : Z; json : completion value }.

(** The argument of [new Article({...})] and the document [save] resolves
    to.  A field that one of the variants leaves out is an [option]. *)
Record Article := {
  title : value;
  slug : value;
  summary : value;
  content : value;
  liveContent : value;
  isFullArticle : option bool;
  author : string;
  category : string;
  featuredImage : value;
  featuredVideo : option string;
  tags : value;
  publishedDate : Z;
  article_status : string;
  tweetId : value;
  tweetUrl : value;
  twitterEmbed : string;
  slug_te : value;
  tags_te : value;
  type : option string
}.

(** One entry of the log of calls that leave the process. *)
Inductive call :=
| CallGemini (prompt : string)
| CallFetch (url : string)
| CallSave (doc : Article)
| CallUpdate (id : value) (update : value).

(** Everything the server does not define itself: the services it calls,
    which may answer differently each time and are therefore functions of a
    [World] they also change, and the built-in functions it uses. *)
Record Services (World : Type) := {
  Date_now : World → Z * World;
  generateContent : string → World → completion value * World;
  fetch : string → World → completion Response * World;
  Article_save : Article → World → completion Article * World;
  Article_findByIdAndUpdate : value → value → World → completion (option Article) * World;
  ObjectId_isValid : value → bool;
  JSON_parse : string → completion value;
  String_trim : string → string;
  ToString : value → string;
  toLocaleDateString : value → string
}.
Arguments Date_now {World} _ _.
Arguments generateContent {World} _ _ _.
Arguments fetch {World} _ _ _.
Arguments Article_save {World} _ _ _.
Arguments Article_findByIdAndUpdate {World} _ _ _ _.
Arguments ObjectId_isValid {World} _ _.
Arguments JSON_parse {World} _ _.
Arguments String_trim {World} _ _.
Arguments ToString {World} _ _.
Arguments toLocaleDateString {World} _ _.

(** [`${v}`] and [String(v)].  On a string the conversion is the identity;
    on any other value it is the built-in [ToString].  The conversion of
    an object or of an array runs its [toString] and can raise a TypeError;
    this is not embedded.  The conversion of a value that is neither an
    object nor an array cannot raise. *)
Definition to_string {World} (svc : Services World) (v : value) : string :=
  match v with
  | VStr s => s
  | _ => ToString svc v
  end.

(** ** The monad of handlers *)

Record state (World : Type) := {
  world : World;
  processedTweetCache : gmap key Z;
  calls : list call
}.
Arguments world {World} _.
Arguments processedTweetCache {World} _.
Arguments calls {World} _.

Definition M (World A : Type) : Type := state World → completion A * state World.

Definition ret {World A} (a : A) : M World A := λ st, (Return a, st).

Definition throw {World A} (e : error) : M World A := λ st, (Throw e, st).

Definition bind {World A B} (m : M World A) (k : A → M World B) : M World B :=
  λ st, match m st with
        | (Return a, st') => k a st'
        | (Throw e, st') => (Throw e, st')
        end.

(** [try { m } catch (error) { h error }] *)
Definition try_catch {World A} (m : M World A) (h : error → M World A) : M World A :=
  λ st, match m st with
        | (Return a, st') => (Return a, st')
        | (Throw e, st') => h e st'
        end.

Definition lift {World A} (r : completion A) : M World A := λ st, (r, st).

(** A call to a service: it is logged, then the world answers. *)
Definition external {World A} (c : call) (f : World → completion A * World) : M World A :=
  λ st, let (r, w) := f (world st) in
        (r, {| world := w;
               processedTweetCache := processedTweetCache st;
               calls := calls st ++ [c] |}).

(** [Date.now()] and [new Date()] *)
Definition date_now {World} (svc : Services World) : M World Z :=
  λ st, let (t, w) := Date_now svc (world st) in
        (Return t, {| world := w;
                      processedTweetCache := processedTweetCache st;
                      calls := calls st |}).

Definition cache_get {World} (id : value) : M World (option Z) :=
  λ st, (Return (Map_get id (processedTweetCache st)), st).

Definition cache_set {World} (id : value) (ts : Z) : M World unit :=
  λ st, (Return tt, {| world := world st;
                       processedTweetCache := Map_set id ts (processedTweetCache st);
                       calls := calls st |}).

Declare Scope js_scope.
Delimit Scope js_scope with js.
Notation "x <- m ;; k" := (bind m (λ x, k))
  (at level 100, m at next level, right associativity) : js_scope.
Notation "m ;;; k" := (bind m (λ _, k))
  (at level 100, right associativity) : js_scope.
Notation "'throw_if' b 'then' e ;; k" := (if b then throw e else k)
  (at level 100, b at next level, e at next level, right associativity) : js_scope.
Notation "' pat <- m ;; k" := (bind m (λ pat, k))
  (at level 20, pat pattern, m at level 99, k at level 200, only parsing) : js_scope.
Open Scope js_scope.

(** The outcome of [processTweetId]: [{ success: true, data }] or
    [{ success: false, id, reason }]. *)
Inductive outcome :=
| Success (data : Article)
| Failure (id : value) (reason : string).

Definition success (r : outcome) : bool :=
  match r with
  | Success _ => true
  | Failure _ _ => false
  end.

(** ** The first variant (lines 1-541) *)

Module Index.

(** The body of a response. *)
Inductive payload :=
| ErrorOnly (error : string)
| ErrorDetails (error details : string)
| Ingested (message : string) (successfulPosts : list Article)
    (failedIds : list (value * string))
| IngestedAuthor (message : string) (successfulPosts : list Article)
    (failedIds : list (value * string)) (skippedCachedIds : list value)
| Transformed (data : value)
| Rejected (error : string) (details : option string)
| Updated (message : string) (data : Article).

(** [res.status(http).json(sent)]; [res.json] alone answers 200. *)
Record reply := { http : Z; sent : payload }.

Section Server.
Context {World : Type} (svc : Services World).
Local Abbreviation M := (M World).

(** *** 7. formatTweetWithGemini (lines 86-135) *)

(** The prompt of lines 87-101, which is built before the [try] block. *)

Definition tweet_prompt (text : value) : string :=
  "You are a professional news editor." +:+ nl +:+
  "  Take the following English text and generate all the required fields." +:+ nl +:+
  nl +:+
  "  1.  **title:** A short, catchy headline translated into **Telugu**." +:+ nl +:+
  "  2.  **summary:** A concise summary translated into **Telugu**, approximately 50 words like telugu professional news editor." +:+ nl +:+
  "  3.  **slug:** A URL-friendly slug based on the *original English text* (e.g., " +:+ dq +:+ "new-system-implemented" +:+ dq +:+ ")." +:+ nl +:+
  "  4.  **tags:** An array of 3-5 relevant tags in **English** (e.g., [" +:+ dq +:+ "viral" +:+ dq +:+ ", " +:+ dq +:+ "news" +:+ dq +:+ "])." +:+ nl +:+
  "  5.  **slug_te:** A URL-friendly slug based on the *Telugu title* (e.g., " +:+ dq +:+ "kotha-pranali-amalu" +:+ dq +:+ ")." +:+ nl +:+
  "  6.  **tags_te:** An array of 3-5 relevant tags in **Telugu** (e.g., [" +:+ dq +:+ "వైరల్" +:+ dq +:+ ", " +:+ dq +:+ "వార్తలు" +:+ dq +:+ "])." +:+ nl +:+
  nl +:+
  "  Return ONLY a valid JSON object with six keys: " +:+ dq +:+ "title" +:+ dq +:+ ", " +:+ dq +:+ "summary" +:+ dq +:+ ", " +:+ dq +:+ "slug" +:+ dq +:+ ", " +:+ dq +:+ "tags" +:+ dq +:+ ", " +:+ dq +:+ "slug_te" +:+ dq +:+ ", and " +:+ dq +:+ "tags_te" +:+ dq +:+ "." +:+ nl +:+
  "  Do not add any other text, markdown, or backticks." +:+ nl +:+
  nl +:+
  "  Input Text:" +:+ nl +:+
  "  " +:+ to_string svc text.

(** [!result || !result.text] *)
Definition no_text (result : value) : completion bool :=
  if negb (truthy result) then Return true
  else match get result "text" with
       | Return t => Return (negb (truthy t))
       | Throw e => Throw e
       end.

(** [result.text.trim()], the two [replace] that drop the fences, [trim()] *)
Definition cleanedJsonString (result : value) : completion string :=
  match get result "text" with
  | Throw e => Throw e
  | Return t =>
      match as_receiver "result.text" "trim" t with
      | Throw e => Throw e
      | Return s =>
          Return (String_trim svc
                    (remove_all fence (remove_all fence_json (String_trim svc s))))
      end
  end.

(** [!v.k1 || !v.k2 || ...], read from left to right *)
Fixpoint some_missing (v : value) (keys : list string) : completion bool :=
  match keys with
  | [] => Return false
  | k :: rest =>
      match get v k with
      | Throw e => Throw e
      | Return x => if truthy x then some_missing v rest else Return true
      end
  end.

Definition six_keys : list string :=
  ["title"; "summary"; "slug"; "tags"; "slug_te"; "tags_te"].

(** The [try] block, lines 104-121. *)
Definition formatTweetWithGemini_try (text : value) : M value :=
  let prompt := tweet_prompt text in
  result <- external (CallGemini prompt) (generateContent svc prompt);;
  empty <- lift (no_text result);;
  throw_if empty then mkError "Gemini returned no text.";;
  cleaned <- lift (cleanedJsonString result);;
  parsedData <- lift (JSON_parse svc cleaned);;
  incomplete <- lift (some_missing parsedData six_keys);;
  throw_if incomplete then mkError "Gemini returned incomplete JSON data.";;
  ret parsedData.

(** The [catch] block, lines 123-134. *)
Definition formatTweetWithGemini_fallback (text : value) : M value :=
  title_ <- lift (call_slice0 50 text);;
  t1 <- date_now svc;;
  t2 <- date_now svc;;
  ret (VObj [("title", title_);
             ("summary", text);
             ("slug", VStr ("fallback-" +:+ pretty t1));
             ("tags", VArr [VStr "news"]);
             ("slug_te", VStr ("fallback-te-" +:+ pretty t2));
             ("tags_te", VArr [VStr "వార్తలు"])]).

Definition formatTweetWithGemini (text : value) : M value :=
  try_catch (formatTweetWithGemini_try text)
            (λ error, formatTweetWithGemini_fallback text).

(** *** 7.5 formatTextWithGemini (lines 138-188) *)

(** The prompt of lines 139-159, which is built before the [try] block. *)

Definition text_prompt (text instruction : value) : string :=
  "You are a professional Telugu news editor." +:+ nl +:+
  "  You will be given a user's instruction and a piece of text." +:+ nl +:+
  "  Your task is to follow the instruction on the text and generate two items:" +:+ nl +:+
  nl +:+
  "  1.  **title:** A short, catchy headline in Telugu based on the result." +:+ nl +:+
  "  2.  **summary:** The resulting text, formatted as a concise summary in Telugu." +:+ nl +:+
  nl +:+
  "  Follow the user's instruction precisely. " +:+ nl +:+
  "  - If the instruction is " +:+ dq +:+ "translate english to telugu" +:+ dq +:+ ", you will translate the text and provide a title and summary of that translation." +:+ nl +:+
  "  - If the instruction is " +:+ dq +:+ "summarize this telugu text" +:+ dq +:+ ", you will summarize it and provide a title for that summary." +:+ nl +:+
  "  - If the instruction is " +:+ dq +:+ "translate hindi to telugu" +:+ dq +:+ ", you will do that and provide a title and summary." +:+ nl +:+
  nl +:+
  "  Return ONLY a valid JSON object with two keys: " +:+ dq +:+ "title" +:+ dq +:+ " and " +:+ dq +:+ "summary" +:+ dq +:+ "." +:+ nl +:+
  "  Do not add any other text, markdown, or backticks." +:+ nl +:+
  nl +:+
  "  ---" +:+ nl +:+
  "  User Instruction:" +:+ nl +:+
  "  " +:+ to_string svc instruction +:+ nl +:+
  "  ---" +:+ nl +:+
  "  Input Text:" +:+ nl +:+
  "  " +:+ to_string svc text.

(** The [try] block, lines 162-178. *)
Definition formatTextWithGemini_try (text instruction : value) : M value :=
  let prompt := text_prompt text instruction in
  result <- external (CallGemini prompt) (generateContent svc prompt);;
  empty <- lift (no_text result);;
  throw_if empty then mkError "Gemini returned no text.";;
  cleaned <- lift (cleanedJsonString result);;
  parsedData <- lift (JSON_parse svc cleaned);;
  incomplete <- lift (some_missing parsedData ["title"; "summary"]);;
  throw_if incomplete
    then mkError "Gemini returned incomplete JSON data (missing title or summary).";;
  ret parsedData.

(** The object of the [catch] block, lines 183-186. *)
Definition formatTextWithGemini_fallback (error : error) : value :=
  VObj [("title", VStr "Error in Processing"); ("summary", VStr (message error))].

Definition formatTextWithGemini (text instruction : value) : M value :=
  try_catch (formatTextWithGemini_try text instruction)
            (λ error, ret (formatTextWithGemini_fallback error)).

(** *** 8. processTweetId (lines 192-271) *)

Definition TWITTER_API_URL : string := "https://api.twitterapi.io/twitter/tweets".

(** [data.status !== "success" || !data.tweets || data.tweets.length === 0] *)
Definition not_found (data : value) : completion bool :=
  match get data "status" with
  | Throw e => Throw e
  | Return st =>
      if negb (is_string st "success") then Return true
      else match get data "tweets" with
           | Throw e => Throw e
           | Return tweets =>
               if negb (truthy tweets) then Return true
               else match get tweets "length" with
                    | Throw e => Throw e
                    | Return n => Return (is_zero n)
                    end
           end
  end.

Definition embed (lang text name userName url : value) (tweetDate : string) : string :=
  nl +:+
  "      <blockquote class=" +:+ dq +:+ "twitter-tweet" +:+ dq +:+
  " data-media-max-width=" +:+ dq +:+ "560" +:+ dq +:+ ">" +:+ nl +:+
  "        <p lang=" +:+ dq +:+ to_string svc (or_else lang (VStr "en")) +:+ dq +:+
  " dir=" +:+ dq +:+ "ltr" +:+ dq +:+ ">" +:+ to_string svc text +:+ "</p>" +:+ nl +:+
  "        &mdash; " +:+ to_string svc name +:+ " (@" +:+ to_string svc userName +:+ ") " +:+ nl +:+
  "        <a href=" +:+ dq +:+ to_string svc url +:+ dq +:+ ">" +:+ tweetDate +:+ "</a>" +:+ nl +:+
  "      </blockquote>" +:+ nl +:+
  "      <script async src=" +:+ dq +:+ "https://platform.twitter.com/widgets.js" +:+ dq +:+
  " charset=" +:+ dq +:+ "utf-8" +:+ dq +:+ "></script>" +:+ nl +:+
  "    ".

(** [tweet.extendedEntities?.media?.[0]?.media_url_https || null] *)
Definition featured (extendedEntities : value) : value :=
  or_else (get_opt (first_opt (get_opt extendedEntities "media")) "media_url_https") VNull.

(** The [try] block, lines 196-262. *)
Definition processTweetId_try (tweetId : value) : M Article :=
  let url := TWITTER_API_URL +:+ "?tweet_ids=" +:+ to_string svc tweetId in
  response <- external (CallFetch url) (fetch svc url);;
  throw_if negb (ok response)
    then mkError ("Twitter API request failed with status " +:+ pretty (status response));;
  data <- lift (json response);;
  missing <- lift (not_found data);;
  throw_if missing then mkError "Not found or API error";;
  tweets <- lift (get data "tweets");;
  tweet <- lift (first tweets);;
  (* Step 2 *)
  text <- lift (get tweet "text");;
  geminiResult <- formatTweetWithGemini text;;
  (* Step 3 *)
  createdAt <- lift (get tweet "createdAt");;
  let tweetDate := toLocaleDateString svc createdAt in
  lang <- lift (get tweet "lang");;
  author_ <- lift (get tweet "author");;
  name <- lift (get author_ "name");;
  userName <- lift (get author_ "userName");;
  url_ <- lift (get tweet "url");;
  let twitterEmbed_ := embed lang text name userName url_ tweetDate in
  summary_ <- lift (get geminiResult "summary");;
  let liveContent_ := VStr (to_string svc summary_) in
  (* Step 4 *)
  title_ <- lift (get geminiResult "title");;
  slug_ <- lift (get geminiResult "slug");;
  extendedEntities <- lift (get tweet "extendedEntities");;
  tags_ <- lift (get geminiResult "tags");;
  publishedDate_ <- date_now svc;;
  id_ <- lift (get tweet "id");;
  slug_te_ <- lift (get geminiResult "slug_te");;
  tags_te_ <- lift (get geminiResult "tags_te");;
  let newArticle :=
    {| title := title_;
       slug := slug_;
       summary := summary_;
       content := if truthy summary_ then summary_
                  else VStr ("<p>" +:+ to_string svc text +:+ "</p>");
       liveContent := liveContent_;
       isFullArticle := Some false;
       author := "Vijay";
       category := "news";
       featuredImage := featured extendedEntities;
       featuredVideo := Some "";
       tags := tags_;
       publishedDate := publishedDate_;
       article_status := "draft";
       tweetId := id_;
       tweetUrl := url_;
       twitterEmbed := twitterEmbed_;
       slug_te := slug_te_;
       tags_te := tags_te_;
       type := None |} in
  external (CallSave newArticle) (Article_save svc newArticle).

(** Lines 264-270.  The [catch] block logs the id in two template literals
    (lines 265 and 267), which are left out with the rest of the console
    output. *)
Definition processTweetId (tweetId : value) : M outcome :=
  try_catch (savedArticle <- processTweetId_try tweetId;; ret (Success savedArticle))
            (λ error, ret (Failure tweetId (message error))).

(** *** 9. The endpoints *)

(** The loop of lines 288-295 (and 325-332), on the two accumulators
    [successfulPosts] and [failedIds]. *)
Fixpoint processIds (tweet_ids : list value)
    (successfulPosts : list Article) (failedIds : list (value * string))
    : M (list Article * list (value * string)) :=
  match tweet_ids with
  | [] => ret (successfulPosts, failedIds)
  | tweetId :: rest =>
      result <- processTweetId tweetId;;
      match result with
      | Success data => processIds rest (successfulPosts ++ [data]) failedIds
      | Failure id reason => processIds rest successfulPosts (failedIds ++ [(id, reason)])
      end
  end.

Definition processed_message (n m : nat) : string :=
  "Processed " +:+ pretty n +:+ " of " +:+ pretty m +:+ " tweets.".

(** [app.post('/api/fetch-tweet-and-save')], lines 276-302 *)
Definition post_fetch_tweet_and_save (body : value) : M reply :=
  tweet_ids <- lift (get body "tweet_ids");;
  if negb (truthy tweet_ids) || negb (isArray tweet_ids)
     || is_zero (get_opt tweet_ids "length")
  then ret {| http := 400; sent := ErrorOnly "tweet_ids must be a non-empty array." |}
  else
    ids <- lift (iterate "tweet_ids" tweet_ids);;
    '(successfulPosts, failedIds) <- processIds ids [] [];;
    ret {| http := 200;
           sent := Ingested (processed_message (length successfulPosts) (length ids))
                            successfulPosts failedIds |}.

(** [app.get('/api/fetch-tweet-and-save')], lines 305-339 *)
Definition get_fetch_tweet_and_save (query : value) : M reply :=
  tweet_ids <- lift (get query "tweet_ids");;
  if negb (truthy tweet_ids)
  then ret {| http := 400; sent := ErrorOnly "tweet_ids query parameter is required." |}
  else
    joined <- lift (as_receiver "tweet_ids" "split" tweet_ids);;
    let idsToProcess :=
      filter (λ id, id ≠ "") (String_trim svc <$> split_comma joined) in
    if bool_decide (length idsToProcess = 0%nat)
    then ret {| http := 400; sent := ErrorOnly "No valid tweet_ids provided." |}
    else
      '(successfulPosts, failedIds) <- processIds (VStr <$> idsToProcess) [] [];;
      ret {| http := 200;
             sent := Ingested (processed_message (length successfulPosts)
                                                 (length idsToProcess))
                              successfulPosts failedIds |}.

Definition TWITTER_USER_API_URL : string :=
  "https://api.twitterapi.io/twitter/user/last_tweets".

(** [data.status !== "success" || !data.tweets] *)
Definition no_tweets (data : value) : completion bool :=
  match get data "status" with
  | Throw e => Throw e
  | Return st =>
      if negb (is_string st "success") then Return true
      else match get data "tweets" with
           | Throw e => Throw e
           | Return tweets => Return (negb (truthy tweets))
           end
  end.

(** Step 2, the loop of lines 377-386. *)
Fixpoint filterTweets (now : Z) (tweets : list value)
    (tweetsToProcess skippedCachedIds : list value) : M (list value * list value) :=
  match tweets with
  | [] => ret (tweetsToProcess, skippedCachedIds)
  | tweet :: rest =>
      tweetId <- lift (get tweet "id");;
      cacheEntry <- cache_get tweetId;;
      if recently now cacheEntry
      then filterTweets now rest tweetsToProcess (skippedCachedIds ++ [tweetId])
      else filterTweets now rest (tweetsToProcess ++ [tweet]) skippedCachedIds
  end.

(** Step 3, the loop of lines 392-403. *)
Fixpoint processTweets (now : Z) (tweetsToProcess : list value)
    (successfulPosts : list Article) (failedIds : list (value * string))
    : M (list Article * list (value * string)) :=
  match tweetsToProcess with
  | [] => ret (successfulPosts, failedIds)
  | tweet :: rest =>
      tweetId <- lift (get tweet "id");;
      result <- processTweetId tweetId;;
      let '(successfulPosts', failedIds') :=
        match result with
        | Success data => ((successfulPosts ++ [data])%list, failedIds)
        | Failure id reason => (successfulPosts, (failedIds ++ [(id, reason)])%list)
        end in
      cache_set tweetId now;;;
      processTweets now rest successfulPosts' failedIds'
  end.

Definition author_message (fetched : value) (processed failed skipped : nat) : string :=
  "Fetched " +:+ to_string svc fetched +:+ " tweets. Processed " +:+ pretty processed +:+
  ", failed " +:+ pretty failed +:+ ", skipped " +:+ pretty skipped +:+ " (cached).".

(** Steps 2 to 4, lines 372-411, on the value of [data.tweets]. *)
Definition processUserTweets (tweets : value) : M reply :=
  now_ <- date_now svc;;
  items <- lift (iterate "data.tweets" tweets);;
  '(tweetsToProcess, skippedCachedIds) <- filterTweets now_ items [] [];;
  '(successfulPosts, failedIds) <- processTweets now_ tweetsToProcess [] [];;
  fetched <- lift (get tweets "length");;
  ret {| http := 200;
         sent := IngestedAuthor
                   (author_message fetched (length successfulPosts) (length failedIds)
                                   (length skippedCachedIds))
                   successfulPosts failedIds skippedCachedIds |}.

(** [app.get('/api/fetch-user-last-tweets')], lines 342-420 *)
Definition fetch_user_last_tweets (query : value) : M reply :=
  userName <- lift (get query "userName");;
  if negb (truthy userName)
  then ret {| http := 400; sent := ErrorOnly "username query parameter is required." |}
  else
    try_catch
      (let url := TWITTER_USER_API_URL +:+ "?userName=" +:+ to_string svc userName in
       response <- external (CallFetch url) (fetch svc url);;
       throw_if negb (ok response)
         then mkError ("Twitter User API request failed with status "
                       +:+ pretty (status response));;
       data <- lift (json response);;
       missing <- lift (no_tweets data);;
       throw_if missing then mkError "Not found or Twitter API error";;
       tweets <- lift (get data "tweets");;
       processUserTweets tweets)
      (λ error,
         ret {| http := 500;
                sent := ErrorDetails "Failed to process user's last tweets"
                                     (message error) |}).

(** [app.post('/api/summarize-text')], lines 423-443 *)
Definition summarize_text (body : value) : M reply :=
  text <- lift (get body "text");;
  instruction <- lift (get body "instruction");;
  if negb (truthy text) || negb (truthy instruction)
  then ret {| http := 400;
              sent := ErrorOnly
                "Both 'text' and 'instruction' are required in the request body." |}
  else
    try_catch
      (geminiResult <- formatTextWithGemini text instruction;;
       ret {| http := 200; sent := Transformed geminiResult |})
      (λ error,
         ret {| http := 500;
                sent := Rejected "Failed to process text" (Some (message error)) |}).

(** [app.post('/api/update-article/:id')], lines 446-491 *)
Definition update_article (id : value) (body : value) : M reply :=
  if negb (ObjectId_isValid svc id)
  then ret {| http := 400; sent := ErrorOnly "Invalid Article ID format." |}
  else
    updatedData <- lift (delete_field "_id" body);;
    try_catch
      (updatedArticle <- external (CallUpdate id updatedData)
                           (Article_findByIdAndUpdate svc id updatedData);;
       match updatedArticle with
       | None => ret {| http := 404; sent := Rejected "Article not found." None |}
       | Some article =>
           ret {| http := 200; sent := Updated "Article updated successfully." article |}
       end)
      (λ error,
         if bool_decide (code error = Some 11000)
         then ret {| http := 409;
                     sent := Rejected "Update failed: Duplicate key."
                               (Some "A unique field (like slug or tweetId) already exists.") |}
         else ret {| http := 500;
                     sent := Rejected "Failed to update article" (Some (message error)) |}).

End Server.
End Index.

(** ** The second variant (lines 542-995) *)

Module Final.

Inductive payload :=
| ErrorOnly (error : string)
| Ingested (success : list Article) (failed : list outcome)
| IngestedAuthor (success : list Article) (failed : list outcome) (skipped : list value)
| Transformed (data : value)
| Updated (data : Article)
| Raw (data : value).

Record reply := { http : Z; sent : payload }.

Section Server.
Context {World : Type} (svc : Services World).
Local Abbreviation M := (M World).

(** *** formatTweetWithGemini (lines 648-674) *)

(** The prompt of lines 649-654, which is built before the [try] block. *)

Definition tweet_prompt (text : value) : string :=
  nl +:+
  "    You are a professional Telugu news editor." +:+ nl +:+
  "    Generate JSON only:" +:+ nl +:+
  "    { " +:+ dq +:+ "title" +:+ dq +:+ ", " +:+ dq +:+ "summary" +:+ dq +:+ ", " +:+
  dq +:+ "slug" +:+ dq +:+ ", " +:+ dq +:+ "tags" +:+ dq +:+ ", " +:+
  dq +:+ "slug_te" +:+ dq +:+ ", " +:+ dq +:+ "tags_te" +:+ dq +:+ " }" +:+ nl +:+
  "    Text: " +:+ to_string svc text +:+ nl +:+
  "  ".

(** [result.text], the [replace] that drops the fences, [trim()] *)
Definition cleaned (result : value) : completion string :=
  match get result "text" with
  | Throw e => Throw e
  | Return t =>
      match as_receiver "result.text" "replace" t with
      | Throw e => Throw e
      | Return s => Return (String_trim svc (remove_either fence_json fence s))
      end
  end.

(** The [try] block, lines 657-663. *)
Definition formatTweetWithGemini_try (text : value) : M value :=
  let prompt := tweet_prompt text in
  result <- external (CallGemini prompt) (generateContent svc prompt);;
  s <- lift (cleaned result);;
  lift (JSON_parse svc s).

(** The [catch] block, lines 665-672. *)
Definition formatTweetWithGemini_fallback (text : value) : M value :=
  title_ <- lift (call_slice0 60 text);;
  head_ <- lift (call_slice0 60 text);;
  t1 <- date_now svc;;
  t2 <- date_now svc;;
  ret (VObj [("title", title_);
             ("summary", text);
             ("slug", VStr (to_string svc head_ +:+ pretty t1));
             ("tags", VArr [VStr "news"]);
             ("slug_te", VStr ("fallback-te-" +:+ pretty t2));
             ("tags_te", VArr [VStr "వార్తలు"])]).

Definition formatTweetWithGemini (text : value) : M value :=
  try_catch (formatTweetWithGemini_try text)
            (λ e, formatTweetWithGemini_fallback text).

(** *** formatTextWithGemini (lines 676-694) *)

(** The prompt of lines 677-681, which is built before the [try] block. *)

Definition text_prompt (text instruction : value) : string :=
  nl +:+
  "    Process the text following instruction: " +:+ to_string svc instruction +:+ nl +:+
  "    Return JSON: { " +:+ dq +:+ "title" +:+ dq +:+ ", " +:+ dq +:+ "summary" +:+ dq +:+
  " }" +:+ nl +:+
  "    Text: " +:+ to_string svc text +:+ nl +:+
  "  ".

(** The [try] block, lines 684-690. *)
Definition formatTextWithGemini_try (text instruction : value) : M value :=
  let prompt := text_prompt text instruction in
  result <- external (CallGemini prompt) (generateContent svc prompt);;
  s <- lift (cleaned result);;
  lift (JSON_parse svc s).

(** The object of the [catch] block, line 692. *)
Definition formatTextWithGemini_fallback (e : error) : value :=
  VObj [("title", VStr "Error"); ("summary", VStr (message e))].

Definition formatTextWithGemini (text instruction : value) : M value :=
  try_catch (formatTextWithGemini_try text instruction)
            (λ e, ret (formatTextWithGemini_fallback e)).

(** *** processTweetId (lines 699-750) *)

Definition TWITTER_API_URL : string := "https://api.twitterapi.io/twitter/tweets".

Definition embed (text name userName url createdAt : value) : string :=
  nl +:+
  "      <blockquote class=" +:+ dq +:+ "twitter-tweet" +:+ dq +:+ ">" +:+ nl +:+
  "        <p>" +:+ to_string svc text +:+ "</p>" +:+ nl +:+
  "        — " +:+ to_string svc name +:+ " (@" +:+ to_string svc userName +:+ ")" +:+ nl +:+
  "        <a href=" +:+ dq +:+ to_string svc url +:+ dq +:+ ">" +:+
  to_string svc createdAt +:+ "</a>" +:+ nl +:+
  "      </blockquote>" +:+ nl +:+
  "      <script async src=" +:+ dq +:+ "https://platform.twitter.com/widgets.js" +:+ dq +:+
  "></script>" +:+ nl +:+
  "    ".

(** [tweet.extendedEntities?.media?.[0]?.media_url_https || null] *)
Definition featured (extendedEntities : value) : value :=
  or_else (get_opt (first_opt (get_opt extendedEntities "media")) "media_url_https") VNull.

(** The [try] block, lines 703-746. *)
Definition processTweetId_try (tweetId : value) : M Article :=
  let url := TWITTER_API_URL +:+ "?tweet_ids=" +:+ to_string svc tweetId in
  response <- external (CallFetch url) (fetch svc url);;
  throw_if negb (ok response) then mkError "Twitter API request failed";;
  data <- lift (json response);;
  throw_if negb (truthy (first_opt (get_opt data "tweets")))
    then mkError "Tweet not found";;
  tweets <- lift (get data "tweets");;
  tweet <- lift (first tweets);;
  text <- lift (get tweet "text");;
  geminiData <- formatTweetWithGemini text;;
  author_ <- lift (get tweet "author");;
  name <- lift (get author_ "name");;
  userName <- lift (get author_ "userName");;
  url_ <- lift (get tweet "url");;
  createdAt <- lift (get tweet "createdAt");;
  let twitterEmbed_ := embed text name userName url_ createdAt in
  title_ <- lift (get geminiData "title");;
  summary_ <- lift (get geminiData "summary");;
  slug_ <- lift (get geminiData "slug");;
  slug_te_ <- lift (get geminiData "slug_te");;
  tags_ <- lift (get geminiData "tags");;
  tags_te_ <- lift (get geminiData "tags_te");;
  id_ <- lift (get tweet "id");;
  extendedEntities <- lift (get tweet "extendedEntities");;
  publishedDate_ <- date_now svc;;
  let article :=
    {| title := title_;
       summary := summary_;
       slug := slug_;
       slug_te := slug_te_;
       tags := tags_;
       tags_te := tags_te_;
       content := summary_;
       liveContent := summary_;
       tweetId := id_;
       tweetUrl := url_;
       featuredImage := featured extendedEntities;
       twitterEmbed := twitterEmbed_;
       author := "Vijay";
       category := "news";
       publishedDate := publishedDate_;
       article_status := "published";
       type := Some "twitter";
       isFullArticle := None;
       featuredVideo := None |} in
  external (CallSave article) (Article_save svc article).

Definition processTweetId (tweetId : value) : M outcome :=
  try_catch (savedArticle <- processTweetId_try tweetId;; ret (Success savedArticle))
            (λ error, ret (Failure tweetId (message error))).

(** *** The routes *)

(** The loop of lines 763-766 (and 777-780); a failed [result] is pushed
    whole. *)
Fixpoint processIds (ids : list value) (success : list Article) (failed : list outcome)
    : M (list Article * list outcome) :=
  match ids with
  | [] => ret (success, failed)
  | id :: rest =>
      result <- processTweetId id;;
      match result with
      | Success data => processIds rest (success ++ [data]) failed
      | Failure _ _ => processIds rest success (failed ++ [result])
      end
  end.

(** [app.post("/api/fetch-tweet-and-save")], lines 756-769 *)
Definition post_fetch_tweet_and_save (body : value) : M reply :=
  tweet_ids <- lift (get body "tweet_ids");;
  if negb (truthy tweet_ids)
  then ret {| http := 400; sent := ErrorOnly "tweet_ids required" |}
  else
    ids <- lift (iterate "tweet_ids" tweet_ids);;
    '(success, failed) <- processIds ids [] [];;
    ret {| http := 200; sent := Ingested success failed |}.

(** [req.query.tweet_ids?.split(",") || []] *)
Definition query_ids (query : value) : completion (list value) :=
  match get query "tweet_ids" with
  | Throw e => Throw e
  | Return tweet_ids =>
      if nullish tweet_ids then Return []
      else match as_receiver "req.query.tweet_ids?" "split" tweet_ids with
           | Throw e => Throw e
           | Return joined => Return (VStr <$> split_comma joined)
           end
  end.

(** [app.get("/api/fetch-tweet-and-save")], lines 771-783 *)
Definition get_fetch_tweet_and_save (query : value) : M reply :=
  ids <- lift (query_ids query);;
  '(success, failed) <- processIds ids [] [];;
  ret {| http := 200; sent := Ingested success failed |}.

Definition API_URL : string := "https://api.twitterapi.io/twitter/user/last_tweets".

(** [data?.tweets ?? data?.data?.tweets ?? data?.items ?? []], then
    [if (!Array.isArray(tweets)) tweets = []], lines 800-803 *)
Definition normalize (data : value) : list value :=
  let tweets :=
    coalesce (get_opt data "tweets")
      (coalesce (get_opt (get_opt data "data") "tweets")
         (coalesce (get_opt data "items") (VArr []))) in
  match tweets with
  | VArr items => items
  | _ => []
  end.

(** The loop of lines 809-817. *)
Fixpoint filterTweets (now : Z) (tweets : list value)
    (toProcess skipped : list value) : M (list value * list value) :=
  match tweets with
  | [] => ret (toProcess, skipped)
  | t :: rest =>
      id <- lift (get t "id");;
      cached <- cache_get id;;
      if recently now cached
      then filterTweets now rest toProcess (skipped ++ [id])
      else filterTweets now rest (toProcess ++ [t]) skipped
  end.

(** The loop of lines 822-826. *)
Fixpoint processTweets (now : Z) (toProcess : list value)
    (success : list Article) (failed : list outcome)
    : M (list Article * list outcome) :=
  match toProcess with
  | [] => ret (success, failed)
  | t :: rest =>
      id <- lift (get t "id");;
      res <- processTweetId id;;
      let '(success', failed') :=
        match res with
        | Success data => ((success ++ [data])%list, failed)
        | Failure _ _ => (success, (failed ++ [res])%list)
        end in
      id' <- lift (get t "id");;
      cache_set id' now;;;
      processTweets now rest success' failed'
  end.

(** Lines 805-828, on the normalized list of tweets. *)
Definition processUserTweets (tweets : list value) : M reply :=
  now_ <- date_now svc;;
  '(toProcess, skipped) <- filterTweets now_ tweets [] [];;
  '(success, failed) <- processTweets now_ toProcess [] [];;
  ret {| http := 200; sent := IngestedAuthor success failed skipped |}.

(** [app.get("/api/fetch-user-last-tweets")], lines 788-832 *)
Definition fetch_user_last_tweets (query : value) : M reply :=
  userName <- lift (get query "userName");;
  if negb (truthy userName)
  then ret {| http := 400; sent := ErrorOnly "username required" |}
  else
    try_catch
      (let url := API_URL +:+ "?userName=" +:+ to_string svc userName in
       response <- external (CallFetch url) (fetch svc url);;
       data <- lift (json response);;
       processUserTweets (normalize data))
      (λ e, ret {| http := 500; sent := ErrorOnly (message e) |}).

(** [app.post("/api/summarize-text")], lines 849-854 *)
Definition summarize_text (body : value) : M reply :=
  text <- lift (get body "text");;
  instruction <- lift (get body "instruction");;
  result <- formatTextWithGemini text instruction;;
  ret {| http := 200; sent := Transformed result |}.

(** [app.post("/api/update-article/:id")], lines 859-872 *)
Definition update_article (id : value) (body : value) : M reply :=
  try_catch
    (updated <- external (CallUpdate id body) (Article_findByIdAndUpdate svc id body);;
     match updated with
     | None => ret {| http := 404; sent := ErrorOnly "Not found" |}
     | Some article => ret {| http := 200; sent := Updated article |}
     end)
    (λ e, ret {| http := 500; sent := ErrorOnly (message e) |}).

(** [app.get("/debug/twitterapi")], lines 903-921 *)
Definition debug_twitterapi (query : value) : M reply :=
  userName <- lift (get query "userName");;
  if negb (truthy userName)
  then ret {| http := 200; sent := ErrorOnly "username required" |}
  else
    try_catch
      (let url := API_URL +:+ "?userName=" +:+ to_string svc userName in
       response <- external (CallFetch url) (fetch svc url);;
       data <- lift (json response);;
       ret {| http := 200; sent := Raw data |})
      (λ e, ret {| http := 200; sent := ErrorOnly (message e) |}).

End Server.
End Final.

(** ** The policy on origins (lines 31-47 and 589-606) *)

Module Cors.

Definition allowedOrigins : list string :=
  ["http://localhost:3000";
   "http://localhost:3001";
   "https://news-dashboard-ob0p.onrender.com"].

(** [list.indexOf(v)], which compares with [===] *)
Fixpoint indexOf_from (i : Z) (list : list string) (v : value) : Z :=
  match list with
  | [] => -1
  | x :: rest => if is_string v x then i else indexOf_from (i + 1) rest v
  end.

Definition indexOf (list : list string) (v : value) : Z := indexOf_from 0 list v.

(** [list.includes(v)] *)
Fixpoint includes (list : list string) (v : value) : bool :=
  match list with
  | [] => false
  | x :: rest => is_string v x || includes rest v
  end.

(** The [origin] function of the first variant: [callback(null, true)] is
    [Return true], [callback(new Error(...))] is the error. *)
Definition origin_indexOf (origin : value) : completion bool :=
  if negb (truthy origin) || negb (bool_decide (indexOf allowedOrigins origin = -1))
  then Return true
  else Throw (mkError "Not allowed by CORS").

(** The [origin] function of the second variant. *)
Definition origin_includes (origin : value) : completion bool :=
  if negb (truthy origin) || includes allowedOrigins origin
  then Return true
  else Throw (mkError "Not allowed by CORS").

End Cors.

(** ** The polls of the configured authors (lines 495-536, 883-901, 930-984)

    A poll is a request to the server's own author route.  What answers it
    may run in this very process and change its state, the cache included,
    so that the request is a computation [self url] and not a service of the
    world.  [BASE_URL] stands for the address read from the environment and
    [Response_text] for [response.text()]. *)

Module Cron.

(** An element of [results]: [{ user, success, failed, skipped }],
    [{ user, error }] or [{ user, error, body }]. *)
Inductive entry :=
| Polled (user : string) (success failed skipped : value)
| Broken (user : string) (error : string) (body : option string).

Definition user (e : entry) : string :=
  match e with
  | Polled u _ _ _ => u
  | Broken u _ _ => u
  end.

(** [res.json({ message, results })] *)
Record reply := { http : Z; message_ : string; results : list entry }.

Section Polls.
Context {World : Type} (BASE_URL : string) (self : string → M World Response)
  (Response_text : Response → completion string).
Local Abbreviation M := (M World).

Definition route (user : string) : string :=
  BASE_URL +:+ "/api/fetch-user-last-tweets?userName=" +:+ user.

(** The body of the loop of the first variant, lines 506-529. *)
Definition poll (user : string) : M entry :=
  try_catch
    (response <- self (route user);;
     data <- lift (json response);;
     successfulPosts <- lift (get data "successfulPosts");;
     failedIds <- lift (get data "failedIds");;
     skippedCachedIds <- lift (get data "skippedCachedIds");;
     ret (Polled user (or_else successfulPosts (VArr []))
                      (or_else failedIds (VArr []))
                      (or_else skippedCachedIds (VArr []))))
    (λ err, ret (Broken user (message err) None)).

(** [a.k1 || a.k2 || []] *)
Definition either (data : value) (k1 k2 : string) : completion value :=
  match get data k1 with
  | Throw e => Throw e
  | Return x =>
      if truthy x then Return x
      else match get data k2 with
           | Throw e => Throw e
           | Return y => Return (or_else y (VArr []))
           end
  end.

(** The body of the loop of the second variant, lines 941-977. *)
Definition poll' (user : string) : M entry :=
  try_catch
    (response <- self (route user);;
     if negb (ok response)
     then
       body <- lift (Response_text response);;
       ret (Broken user ("Inner API failed (" +:+ pretty (status response) +:+ ")")
                   (Some body))
     else
       data <- lift (json response);;
       success <- lift (either data "success" "successfulPosts");;
       failed <- lift (either data "failed" "failedIds");;
       skipped <- lift (either data "skipped" "skippedCachedIds");;
       ret (Polled user success failed skipped))
    (λ err, ret (Broken user (message err) None)).

(** [for (const user of USERS) { ... results.push(...) }] *)
Fixpoint poll_all (poll : string → M entry) (users : list string) (results : list entry)
    : M (list entry) :=
  match users with
  | [] => ret results
  | user :: rest =>
      entry <- poll user;;
      poll_all poll rest (results ++ [entry])
  end.

(** [app.get("/api/run-cron-twitter")] of the first variant, lines 495-536 *)
Definition run_cron_twitter : M reply :=
  results <- poll_all poll ["bigtvtelugu"; "teluguscribe"] [];;
  ret {| http := 200; message_ := "Cron fetch completed for all users";
         results := results |}.

(** [app.get("/api/run-cron-twitter")] of the second variant, lines 930-984 *)
Definition run_cron_twitter' : M reply :=
  results <- poll_all poll' ["NDTVProfitIndia"] [];;
  ret {| http := 200; message_ := "Cron fetch completed for all users";
         results := results |}.

(** The body of the loop of the scheduled job, lines 887-899: the answer
    is only logged. *)
Definition tick_user (userName : string) : M unit :=
  try_catch
    (res <- self (route userName);;
     result <- lift (json res);;
     success <- lift (get result "success");;
     ret tt)
    (λ err, ret tt).

Fixpoint tick_all (users : list string) : M unit :=
  match users with
  | [] => ret tt
  | userName :: rest => tick_user userName;;; tick_all rest
  end.

Definition CRON_TWITTER_USERS : list string := ["bigtvtelugu"; "UttarandhraNow"].

(** The job given to [cron.schedule], lines 883-901 *)
Definition tick : M unit := tick_all CRON_TWITTER_USERS.

End Polls.
End Cron.

(** ** Vocabulary of the statements *)

(** A field is present when reading it yields a truthy value: for a string
    this is being non-empty. *)
Definition present (v : value) (k : string) : Prop :=
  ∃ x, get v k = Return x ∧ truthy x = true.

Definition complete (v : value) : Prop := Forall (present v) Index.six_keys.

(** The initial state of a server process in the world [w]. *)
Definition boot {World} (w : World) : state World :=
  {| world := w; processedTweetCache := ∅; calls := [] |}.

(** A computation that leaves [processedTweetCache] alone, whatever its
    outcome. *)
Definition keeps_cache {World A} (m : M World A) : Prop :=
  ∀ st r st', m st = (r, st') → processedTweetCache st' = processedTweetCache st.

(** A computation that makes no call and changes nothing. *)
Definition silent {World A} (m : M World A) (st : state World) : Prop :=
  ∀ r st', m st = (r, st') → st' = st.

(** A computation whose errors all carry a message. *)
Definition told {World A} (m : M World A) : Prop :=
  ∀ st e st', m st = (Throw e, st') → message e ≠ "".

(** The errors the services raise carry a message. *)
Record outspoken {World} (svc : Services World) : Prop := {
  fetch_told : ∀ url w e w', fetch svc url w = (Throw e, w') → message e ≠ "";
  json_told : ∀ url w response w' e,
    fetch svc url w = (Return response, w') → json response = Throw e → message e ≠ "";
  save_told : ∀ doc w e w', Article_save svc doc w = (Throw e, w') → message e ≠ ""
}.

Definition successes (results : list outcome) : list Article :=
  omap (λ r, match r with Success data => Some data | Failure _ _ => None end) results.

Definition failures (results : list outcome) : list outcome :=
  filter (λ r, success r = false) results.

Definition failed_ids (results : list outcome) : list (value * string) :=
  omap (λ r, match r with Success _ => None | Failure id reason => Some (id, reason) end)
       results.

(** The results of attempting the ids of a list one after the other:
    [process] is run on each id in turn, and [mark] is what happens to the
    state between one attempt and the next. *)
Inductive attempts {World} (process : value → M World outcome)
    (mark : value → state World → state World)
    : list value → state World → list outcome → state World → Prop :=
| attempts_nil st : attempts process mark [] st [] st
| attempts_cons id ids st r st1 rs st2 :
    process id st = (Return r, st1) →
    attempts process mark ids (mark id st1) rs st2 →
    attempts process mark (id :: ids) st (r :: rs) st2.

Definition unmarked {World} (id : value) (st : state World) : state World := st.

(** The results of a batch: each id of the list is attempted in turn by the
    [try] block of [processTweetId], from the state the attempt before it
    ended in, and yields one result: [Success] with the document the block
    returned, or [Failure] with this id and the message of the error the
    block raised. *)
Inductive batch {World} (try_ : value → M World Article)
    : list value → state World → list outcome → state World → Prop :=
| batch_nil st : batch try_ [] st [] st
| batch_saved id ids st doc st1 rs st2 :
    try_ id st = (Return doc, st1) →
    batch try_ ids st1 rs st2 →
    batch try_ (id :: ids) st (Success doc :: rs) st2
| batch_failed id ids st e st1 rs st2 :
    try_ id st = (Throw e, st1) →
    batch try_ ids st1 rs st2 →
    batch try_ (id :: ids) st (Failure id (message e) :: rs) st2.

(** The reasons of the failures of a list of results. *)
Definition reasons (results : list outcome) : list string :=
  omap (λ r, match r with Success _ => None | Failure _ reason => Some reason end)
       results.

(** [processedTweetCache.set(id, now)] as a change of state. *)
Definition marked {World} (now : Z) (id : value) (st : state World) : state World :=
  {| world := world st;
     processedTweetCache := Map_set id now (processedTweetCache st);
     calls := calls st |}.

(** The state after [Date.now()] answered in world [w]. *)
Definition ticked {World} (st : state World) (w : World) : state World :=
  {| world := w; processedTweetCache := processedTweetCache st; calls := calls st |}.

(** [tweet.id] of an item of the feed. *)
Definition id_of (tweet : value) : value := get_opt tweet "id".

(** Whether the id is held back by the cache at time [now]. *)
Definition cached_at (cache : gmap key Z) (now : Z) (id : value) : bool :=
  recently now (Map_get id cache).

(** Every stored timestamp was read from a clock that has left the epoch. *)
Definition stamped (cache : gmap key Z) : Prop :=
  map_Forall (λ _ ts, ts ≠ 0) cache.

(** The items of a feed that the cache holds back at time [now], and those
    that are due for an attempt. *)
Definition held_back (cache : gmap key Z) (now : Z) (tweets : list value) : list value :=
  filter (λ tweet, cached_at cache now (id_of tweet) = true) tweets.

Definition due (cache : gmap key Z) (now : Z) (tweets : list value) : list value :=
  filter (λ tweet, cached_at cache now (id_of tweet) = false) tweets.

(** The cache after the ids of a list were marked at time [now]. *)
Definition mark_all (now : Z) (ids : list value) (cache : gmap key Z) : gmap key Z :=
  foldl (λ c id, Map_set id now c) cache ids.

Definition nothing_done : Final.reply :=
  {| Final.http := 200; Final.sent := Final.IngestedAuthor [] [] [] |}.

(** A payload that holds an array in none of the three places the second
    variant looks at. *)
Definition holds_no_array (data : value) : Prop :=
  isArray (get_opt data "tweets") = false ∧
  isArray (get_opt (get_opt data "data") "tweets") = false ∧
  isArray (get_opt data "items") = false.

(** The address of the feed of an author, the same in both variants. *)
Definition user_url {World} (svc : Services World) (userName : value) : string :=
  Final.API_URL +:+ "?userName=" +:+ to_string svc userName.

Definition bad_request (error : string) : Index.reply :=
  {| Index.http := 400; Index.sent := Index.ErrorOnly error |}.

Definition bad_request' (error : string) : Final.reply :=
  {| Final.http := 400; Final.sent := Final.ErrorOnly error |}.

(** The state after a call [c] was answered in world [w]. *)
Definition called {World} (st : state World) (c : call) (w : World) : state World :=
  {| world := w; processedTweetCache := processedTweetCache st; calls := calls st ++ [c] |}.


Definition not_found_500 : Index.reply :=
  {| Index.http := 500;
     Index.sent := Index.ErrorDetails "Failed to process user's last tweets"
                                      "Not found or Twitter API error" |}.

(** The results of running [f] on the elements of a list one after the
    other, each run starting in the state the one before ended in. *)
Inductive rounds {World A B} (f : A → M World B)
    : list A → state World → list B → state World → Prop :=
| rounds_nil st : rounds f [] st [] st
| rounds_cons a l st b st1 bs st2 :
    f a st = (Return b, st1) →
    rounds f l st1 bs st2 →
    rounds f (a :: l) st (b :: bs) st2.

(** The number of commas of a string. *)
Fixpoint commas (s : string) : nat :=
  match s with
  | EmptyString => 0
  | String c rest => (if bool_decide (c = ","%char) then 1 else 0) + commas rest
  end.

(** A computation that makes no call to a service, whatever its outcome. *)
Definition quiet {World A} (m : M World A) : Prop :=
  ∀ st r st', m st = (r, st') → calls st' = calls st.

(** The calls of one attempt after the fetch: none, the generative-text
    service alone, or that service and then the store, with a document of
    the given status. *)
Inductive after_fetch (status : string) : list call → Prop :=
| nothing_more : after_fetch status []
| transformed prompt : after_fetch status [CallGemini prompt]
| transformed_saved prompt doc :
    article_status doc = status →
    after_fetch status [CallGemini prompt; CallSave doc].

(** The address asked for the tweet [tweetId], the same in both variants. *)
Definition tweet_url {World} (svc : Services World) (tweetId : value) : string :=
  Final.TWITTER_API_URL +:+ "?tweet_ids=" +:+ to_string svc tweetId.

(** Whether a string holds no backtick. *)
Fixpoint no_backtick (s : string) : bool :=
  match s with
  | EmptyString => true
  | String c rest => negb (bool_decide (c = "`"%char)) && no_backtick rest
  end.

(** ** Scripted services, to run the handlers on concrete requests

    The world is the clock; each reading advances it by one millisecond. *)
Record script := {
  gemini_says : completion value;
  parses_to : completion value;
  fetch_says : completion Response;
  save_says : Article → completion Article;
  update_says : completion (option Article)
}.

Definition scripted (s : script) : Services Z :=
  {| Date_now := λ w, (w, w + 1);
     generateContent := λ _ w, (gemini_says s, w);
     fetch := λ _ w, (fetch_says s, w);
     Article_save := λ doc w, (save_says s doc, w);
     Article_findByIdAndUpdate := λ _ _ w, (update_says s, w);
     ObjectId_isValid := λ id, match id with VStr _ => true | _ => false end;
     JSON_parse := λ _, parses_to s;
     String_trim := λ x, x;
     ToString := λ _, "[object Object]";
     toLocaleDateString := λ _, "Invalid Date" |}.

Definition network_down : error := Error "fetch failed" None.
Definition duplicate_key : error := Error "E11000 duplicate key error collection" (Some 11000).

(** Nothing outside the process answers. *)
Definition offline : script :=
  {| gemini_says := Throw network_down;
     parses_to := Throw (Error "Unexpected end of JSON input" None);
     fetch_says := Throw network_down;
     save_says := λ _, Throw network_down;
     update_says := Throw network_down |}.

Definition a_tweet (id : string) : value :=
  VObj [("id", VStr id); ("text", VStr "hello world"); ("url", VStr "https://x.com/i/1");
        ("createdAt", VStr "Tue Dec 10 07:00:30 +0000 2024");
        ("author", VObj [("name", VStr "A"); ("userName", VStr "a")])].

Definition a_feed (ids : list string) : Response :=
  {| ok := true; status := 200;
     json := Return (VObj [("status", VStr "success"); ("tweets", VArr (a_tweet <$> ids))]) |}.

(** The tweet API answers; the generative service is down, so the fallback
    fields are used; the store accepts every document. *)
Definition online (ids : list string) : script :=
  {| gemini_says := Throw network_down;
     parses_to := Throw (Error "Unexpected end of JSON input" None);
     fetch_says := Return (a_feed ids);
     save_says := λ doc, Return doc;
     update_says := Return None |}.


(** A process that attempted the id [id] at time [ts] and whose clock now
    reads [clock]. *)
Definition seen (id : string) (ts clock : Z) : state Z :=
  {| world := clock; processedTweetCache := {[ KStr id := ts ]}; calls := [] |}.

(** The tweet API answers with an object that holds no tweets. *)
Definition empty_payload : script :=
  {| gemini_says := Throw network_down;
     parses_to := Throw (Error "Unexpected end of JSON input" None);
     fetch_says := Return {| ok := true; status := 200; json := Return (VObj []) |};
     save_says := λ doc, Return doc;
     update_says := Return None |}.

(** The generative service answers with a text that parses to a record
    holding the six fields. *)
Definition six_fields : value :=
  VObj [("title", VStr "t"); ("summary", VStr "s"); ("slug", VStr "a-b");
        ("tags", VArr [VStr "news"]); ("slug_te", VStr "c-d");
        ("tags_te", VArr [VStr "x"])].

Definition answering : script :=
  {| gemini_says := Return (VObj [("text", VStr "{ }")]);
     parses_to := Return six_fields;
     fetch_says := Throw network_down;
     save_says := λ _, Throw network_down;
     update_says := Throw network_down |}.

(** A store that holds nothing at first and has the unique index on
    [tweetId]: the world tells whether the one tweet there is, "7", has been
    stored.  The tweet API answers; the generative service is down. *)
Definition unique_store : Services bool :=
  {| Date_now := λ w, (1700000000000, w);
     generateContent := λ _ w, (Throw network_down, w);
     fetch := λ _ w, (Return (a_feed ["7"]), w);
     Article_save := λ doc (w : bool),
       if w then (Throw duplicate_key, w) else (Return doc, true);
     Article_findByIdAndUpdate := λ _ _ w, (Return None, w);
     ObjectId_isValid := λ id, match id with VStr _ => true | _ => false end;
     JSON_parse := λ _, Throw (Error "Unexpected end of JSON input" None);
     String_trim := λ x, x;
     ToString := λ _, "[object Object]";
     toLocaleDateString := λ _, "Invalid Date" |}.

(** * Properties *)

(** ** Running a computation step by step *)

Section Steps.
Context {World : Type}.
Implicit Types st : state World.

Lemma bind_Return {A B} (m : M World A) (k : A → M World B) st b st' :
  bind m k st = (Return b, st') →
  ∃ a st1, m st = (Return a, st1) ∧ k a st1 = (Return b, st').
Proof.
  unfold bind. destruct (m st) as [[a|e] st1]; [eauto | discriminate].
Qed.

Lemma bind_Throw {A B} (m : M World A) (k : A → M World B) st e st' :
  bind m k st = (Throw e, st') →
  m st = (Throw e, st') ∨ ∃ a st1, m st = (Return a, st1) ∧ k a st1 = (Throw e, st').
Proof.
  unfold bind. destruct (m st) as [[a|e'] st1]; [eauto | intros [= <- <-]; eauto].
Qed.

Lemma bind_run {A B} (m : M World A) (k : A → M World B) st a st1 :
  m st = (Return a, st1) → bind m k st = k a st1.
Proof. unfold bind. by intros ->. Qed.

Lemma bind_fail {A B} (m : M World A) (k : A → M World B) st e st1 :
  m st = (Throw e, st1) → bind m k st = (Throw e, st1).
Proof. unfold bind. by intros ->. Qed.

Lemma lift_Return {A} (r : completion A) st a st' :
  lift r st = (Return a, st') → r = Return a ∧ st' = st.
Proof. unfold lift. by intros [= -> ->]. Qed.

Lemma lift_Throw {A} (r : completion A) st e st' :
  lift (World := World) r st = (Throw e, st') → r = Throw e ∧ st' = st.
Proof. unfold lift. by intros [= -> ->]. Qed.

(** *** The cache is only touched by [cache_set] *)

Lemma keeps_cache_ret {A} (a : A) : keeps_cache (World := World) (ret a).
Proof. by intros st r st' [= <- <-]. Qed.

Lemma keeps_cache_throw {A} e : keeps_cache (World := World) (A := A) (throw e).
Proof. by intros st r st' [= <- <-]. Qed.

Lemma keeps_cache_lift {A} (r : completion A) : keeps_cache (World := World) (lift r).
Proof. by intros st r' st' [= <- <-]. Qed.

Lemma keeps_cache_external {A} c (f : World → completion A * World) :
  keeps_cache (external c f).
Proof.
  intros st r st'. unfold external. destruct (f (world st)). by intros [= <- <-].
Qed.

Lemma keeps_cache_now (svc : Services World) : keeps_cache (date_now svc).
Proof.
  intros st r st'. unfold date_now. destruct (Date_now svc (world st)). by intros [= <- <-].
Qed.

Lemma keeps_cache_bind {A B} (m : M World A) (k : A → M World B) :
  keeps_cache m → (∀ a, keeps_cache (k a)) → keeps_cache (bind m k).
Proof.
  intros Hm Hk st r st'. unfold bind.
  destruct (m st) as [[a|e] st1] eqn:E.
  - intros H. rewrite (Hk _ _ _ _ H). eauto.
  - intros [= <- <-]. eauto.
Qed.

Lemma keeps_cache_try_catch {A} (m : M World A) (h : error → M World A) :
  keeps_cache m → (∀ e, keeps_cache (h e)) → keeps_cache (try_catch m h).
Proof.
  intros Hm Hh st r st'. unfold try_catch.
  destruct (m st) as [[a|e] st1] eqn:E.
  - intros [= <- <-]. eauto.
  - intros H. rewrite (Hh _ _ _ _ H). eauto.
Qed.

Lemma keeps_cache_if {A} (b : bool) (m1 m2 : M World A) :
  keeps_cache m1 → keeps_cache m2 → keeps_cache (if b then m1 else m2).
Proof. by destruct b. Qed.

(** *** Errors and their messages *)

Lemma told_ret {A} (a : A) : told (World := World) (ret a).
Proof. by intros st e st' [=]. Qed.

Lemma told_throw {A} e : message e ≠ "" → told (World := World) (A := A) (throw e).
Proof. by intros He st e' st' [= <- <-]. Qed.

Lemma told_now (svc : Services World) : told (date_now svc).
Proof. intros st e st'. unfold date_now. by destruct (Date_now svc (world st)). Qed.

Lemma told_bind {A B} (m : M World A) (k : A → M World B) :
  told m → (∀ a, told (k a)) → told (bind m k).
Proof.
  intros Hm Hk st e st' [H | (a & st1 & _ & H)]%bind_Throw; [by eapply Hm | by eapply Hk].
Qed.

Lemma told_if {A} (b : bool) (m1 m2 : M World A) :
  told m1 → told m2 → told (if b then m1 else m2).
Proof. by destruct b. Qed.

Lemma told_lift {A} (r : completion A) :
  (∀ e, r = Throw e → message e ≠ "") → told (World := World) (lift r).
Proof. intros Hr st e st' [-> _]%lift_Throw. by apply Hr. Qed.

End Steps.

(** ** Reading values *)

Lemma get_told v k e : get v k = Throw e → message e ≠ "".
Proof. destruct v; simpl; try discriminate; by intros [= <-]. Qed.

Lemma first_told v e : first v = Throw e → message e ≠ "".
Proof.
  destruct v as [| | | |[]| |]; simpl; try discriminate; by intros [= <-].
Qed.

Lemma call_slice0_told n v e : call_slice0 n v = Throw e → message e ≠ "".
Proof. destruct v; simpl; try discriminate; by intros [= <-]. Qed.

Lemma get_nullish v k : nullish v = false → get v k = Return (get_opt v k).
Proof. unfold get_opt. by destruct v. Qed.

Lemma get_Return_nullish v k x : get v k = Return x → nullish v = false.
Proof. by destruct v. Qed.

Lemma get_truthy v k : truthy v = true → get v k = Return (get_opt v k).
Proof. intros H. apply get_nullish. by destruct v. Qed.

Lemma slice0_nonempty n s : s ≠ "" → slice0 (S n) s ≠ "".
Proof. by destruct s. Qed.

Lemma truthy_VStr s : truthy (VStr s) = true ↔ s ≠ "".
Proof.
  simpl. rewrite negb_true_iff, bool_decide_eq_false. done.
Qed.

Lemma append_nonempty_l s1 s2 : s1 ≠ "" → s1 +:+ s2 ≠ "".
Proof. by destruct s1. Qed.

Lemma is_zero_number_of_nat n :
  is_zero (VNum (number_of_nat n)) = bool_decide (n = 0%nat).
Proof.
  unfold is_zero, number_of_nat, number_of_Z.
  apply bool_decide_ext. rewrite Q2Qc_eq_iff.
  unfold Qeq, inject_Z; simpl. lia.
Qed.

Lemma is_zero_length (items : list value) :
  is_zero (get_opt (VArr items) "length") = bool_decide (items = []).
Proof.
  unfold get_opt, get. rewrite bool_decide_eq_true_2 by done.
  rewrite is_zero_number_of_nat.
  apply bool_decide_ext. by destruct items.
Qed.

(** ** The transformer *)

Lemma some_missing_false v keys :
  Index.some_missing v keys = Return false → Forall (present v) keys.
Proof.
  induction keys as [|k keys IH]; simpl; [constructor|].
  destruct (get v k) as [x|] eqn:Hk; [|discriminate].
  destruct (truthy x) eqn:Hx; [|discriminate].
  intros H. constructor; [by exists x | auto].
Qed.

Section Transformer.
Context {World : Type} (svc : Services World).
Implicit Types st : state World.

(** What the first variant returns from its [try] block has passed the
    check of line 117. *)
Lemma formatTweetWithGemini_try_complete text st v st' :
  Index.formatTweetWithGemini_try svc text st = (Return v, st') → complete v.
Proof.
  unfold Index.formatTweetWithGemini_try.
  intros (result & st1 & _ & H)%bind_Return.
  apply bind_Return in H as (empty & st2 & _ & H).
  destruct empty; [discriminate|].
  apply bind_Return in H as (cleaned & st3 & _ & H).
  apply bind_Return in H as (parsedData & st4 & _ & H).
  apply bind_Return in H as (incomplete & st5 & [Hc _]%lift_Return & H).
  destruct incomplete; [discriminate|].
  injection H as <- _. by apply some_missing_false.
Qed.

Lemma formatTextWithGemini_try_present text instruction st v st' :
  Index.formatTextWithGemini_try svc text instruction st = (Return v, st') →
  present v "title" ∧ present v "summary".
Proof.
  unfold Index.formatTextWithGemini_try.
  intros (result & st1 & _ & H)%bind_Return.
  apply bind_Return in H as (empty & st2 & _ & H).
  destruct empty; [discriminate|].
  apply bind_Return in H as (cleaned & st3 & _ & H).
  apply bind_Return in H as (parsedData & st4 & _ & H).
  apply bind_Return in H as (incomplete & st5 & [Hc _]%lift_Return & H).
  destruct incomplete; [discriminate|].
  injection H as <- _. apply some_missing_false in Hc.
  by inversion Hc as [|? ? ? Hs]; inversion Hs.
Qed.

(** The fallback of the first variant on a string. *)
Lemma formatTweetWithGemini_fallback_run (text : string) st :
  ∃ (t1 t2 : Z) st',
    Index.formatTweetWithGemini_fallback svc (VStr text) st =
      (Return (VObj [("title", VStr (slice0 50 text));
                     ("summary", VStr text);
                     ("slug", VStr ("fallback-" +:+ pretty t1));
                     ("tags", VArr [VStr "news"]);
                     ("slug_te", VStr ("fallback-te-" +:+ pretty t2));
                     ("tags_te", VArr [VStr "వార్తలు"])]), st').
Proof.
  unfold Index.formatTweetWithGemini_fallback, bind, lift, date_now, ret; simpl.
  destruct (Date_now svc (world st)) as [t1 w1]; simpl.
  destruct (Date_now svc w1) as [t2 w2]; simpl.
  eauto.
Qed.

(** The fallback of the second variant on a string. *)
Lemma formatTweetWithGemini_fallback_run' (text : string) st :
  ∃ (t1 t2 : Z) st',
    Final.formatTweetWithGemini_fallback svc (VStr text) st =
      (Return (VObj [("title", VStr (slice0 60 text));
                     ("summary", VStr text);
                     ("slug", VStr (slice0 60 text +:+ pretty t1));
                     ("tags", VArr [VStr "news"]);
                     ("slug_te", VStr ("fallback-te-" +:+ pretty t2));
                     ("tags_te", VArr [VStr "వార్తలు"])]), st').
Proof.
  unfold Final.formatTweetWithGemini_fallback, bind, lift, date_now, ret; simpl.
  destruct (Date_now svc (world st)) as [t1 w1]; simpl.
  destruct (Date_now svc w1) as [t2 w2]; simpl.
  eauto.
Qed.

Lemma fallback_complete (title_ summary_ slug_ slug_te_ tag tag_te : string) :
  title_ ≠ "" → summary_ ≠ "" → slug_ ≠ "" → slug_te_ ≠ "" →
  complete (VObj [("title", VStr title_);
                  ("summary", VStr summary_);
                  ("slug", VStr slug_);
                  ("tags", VArr [VStr tag]);
                  ("slug_te", VStr slug_te_);
                  ("tags_te", VArr [VStr tag_te])]).
Proof.
  intros ? ? ? ?. unfold complete, Index.six_keys, present.
  repeat (apply List.Forall_cons;
          [eexists; split; [reflexivity | vm_compute field; by rewrite ?truthy_VStr] |]).
  apply List.Forall_nil.
Qed.

End Transformer.

(** C1, for a text that is not empty.  For every text, and whatever the generative-text
    service and the parser do, [formatTweetWithGemini] returns a value and
    raises nothing, in both variants.  When the text is not empty, what the
    first variant returns has all six fields [title], [summary], [slug],
    [tags], [slug_te] and [tags_te] present; the second variant returns what
    its [try] block parsed as it is, and when that block fails, a fallback
    that has the six fields present for a text that is not empty. *)
Theorem formatTweetWithGemini_total {World} (svc : Services World) (text : string)
    (st : state World) :
  (∃ v st', Index.formatTweetWithGemini svc (VStr text) st = (Return v, st') ∧
            (text ≠ "" → complete v)) ∧
  (∃ v st', Final.formatTweetWithGemini svc (VStr text) st = (Return v, st') ∧
            (∀ v' st1, Final.formatTweetWithGemini_try svc (VStr text) st = (Return v', st1) →
                       v = v') ∧
            (∀ e st1, Final.formatTweetWithGemini_try svc (VStr text) st = (Throw e, st1) →
                      text ≠ "" → complete v)).
Proof.
  split.
  - unfold Index.formatTweetWithGemini, try_catch.
    destruct (Index.formatTweetWithGemini_try svc (VStr text) st) as [[v|e] st1] eqn:Htry.
    + exists v, st1. split; [done|]. intros _.
      by eapply formatTweetWithGemini_try_complete.
    + destruct (formatTweetWithGemini_fallback_run svc text st1) as (t1 & t2 & st' & ->).
      eexists _, st'. split; [done|]. intros Htext.
      apply fallback_complete; try done.
      by apply slice0_nonempty.
  - unfold Final.formatTweetWithGemini, try_catch.
    destruct (Final.formatTweetWithGemini_try svc (VStr text) st) as [[v|e] st1] eqn:Htry.
    + exists v, st1. split; [done|]. split; [by intros ? ? [= <- _] | done].
    + destruct (formatTweetWithGemini_fallback_run' svc text st1) as (t1 & t2 & st' & ->).
      eexists _, st'. split; [done|]. split; [done|]. intros _ _ _ Htext.
      apply fallback_complete; try done.
      * by apply slice0_nonempty.
      * by apply append_nonempty_l, slice0_nonempty.
Qed.

(** The same on the text of a tweet, with the service unreachable. *)
Lemma formatTweetWithGemini_total_witness :
  (∃ v st', Index.formatTweetWithGemini (scripted offline) (VStr "hello world") (boot 0)
            = (Return v, st') ∧ complete v) ∧
  (∃ v st', Final.formatTweetWithGemini (scripted offline) (VStr "hello world") (boot 0)
            = (Return v, st') ∧ complete v).
Proof.
  destruct (formatTweetWithGemini_total (scripted offline) "hello world" (boot 0))
    as [(v & st' & Hrun & Hv) (v' & st'' & Hrun' & _ & Hv')].
  split.
  - exists v, st'. split; [exact Hrun | by apply Hv].
  - exists v', st''. split; [exact Hrun' | by eapply Hv'].
Defined.

(** C1 does not extend to the empty text: with the generative-text
    service unreachable, the first variant returns a record whose [title]
    and [summary] are the empty string. *)
Lemma formatTweetWithGemini_empty_text :
  ∃ v st',
    Index.formatTweetWithGemini (scripted offline) (VStr "") (boot 0) = (Return v, st') ∧
    get v "title" = Return (VStr "") ∧
    get v "summary" = Return (VStr "") ∧
    ¬ complete v.
Proof.
  eexists _, _. split; [vm_compute; reflexivity|].
  split; [reflexivity|]. split; [reflexivity|].
  intros Hc. inversion Hc as [|? ? (x & Hx & Ht) _]. by injection Hx as <-.
Qed.

(** C8, for a text and an instruction that are strings, with the title of
    each variant.  For every such text and instruction,
    [formatTextWithGemini] returns a value and raises nothing.  When the
    [try] block raises [e], the value is the fallback record whose [summary]
    is the message of [e] and whose [title] is "Error in Processing" in the
    first variant and "Error" in the second.  Otherwise it is what the block
    returned, which in the first variant has a [title] and a [summary]. *)
Theorem formatTextWithGemini_total {World} (svc : Services World)
    (text instruction : string) (st : state World) :
  (∃ v st',
     Index.formatTextWithGemini svc (VStr text) (VStr instruction) st = (Return v, st') ∧
     match Index.formatTextWithGemini_try svc (VStr text) (VStr instruction) st with
     | (Return v', _) => v = v' ∧ present v "title" ∧ present v "summary"
     | (Throw e, _) =>
         v = VObj [("title", VStr "Error in Processing"); ("summary", VStr (message e))]
     end) ∧
  (∃ v st',
     Final.formatTextWithGemini svc (VStr text) (VStr instruction) st = (Return v, st') ∧
     match Final.formatTextWithGemini_try svc (VStr text) (VStr instruction) st with
     | (Return v', _) => v = v'
     | (Throw e, _) => v = VObj [("title", VStr "Error"); ("summary", VStr (message e))]
     end).
Proof.
  split.
  - unfold Index.formatTextWithGemini, try_catch.
    destruct (Index.formatTextWithGemini_try svc (VStr text) (VStr instruction) st)
      as [[v|e] st1] eqn:Htry.
    + exists v, st1. split; [done|]. split; [done|].
      by eapply formatTextWithGemini_try_present.
    + by eexists _, st1.
  - unfold Final.formatTextWithGemini, try_catch.
    destruct (Final.formatTextWithGemini_try svc (VStr text) (VStr instruction) st)
      as [[v|e] st1] eqn:Htry.
    + by exists v, st1.
    + by eexists _, st1.
Qed.

(** C8 with the title of the first variant does not hold of the second: with the generative-text
    service unreachable, the fallback's [title] is "Error". *)
Lemma formatTextWithGemini_title_Error :
  ∃ st',
    Final.formatTextWithGemini (scripted offline) (VStr "hello") (VStr "translate") (boot 0)
    = (Return (VObj [("title", VStr "Error"); ("summary", VStr "fetch failed")]), st') ∧
    VStr "Error" ≠ VStr "Error in Processing".
Proof. eexists. split; [vm_compute; reflexivity | discriminate]. Qed.

(** ** One item: processTweetId *)

Section Steps_external.
Context {World : Type}.
Implicit Types st : state World.

Lemma external_Return {A} c (f : World → completion A * World) st a st' :
  external c f st = (Return a, st') →
  ∃ w, f (world st) = (Return a, w) ∧
       st' = {| world := w; processedTweetCache := processedTweetCache st;
                calls := calls st ++ [c] |}.
Proof.
  unfold external. destruct (f (world st)) as [r w]. intros [= -> <-]. eauto.
Qed.

Lemma external_Throw {A} c (f : World → completion A * World) st e st' :
  external c f st = (Throw e, st') → ∃ w, f (world st) = (Throw e, w).
Proof.
  unfold external. destruct (f (world st)) as [r w]. intros [= -> <-]. eauto.
Qed.

Lemma external_run {A} c (f : World → completion A * World) st r w :
  f (world st) = (r, w) → external c f st = (r, called st c w).
Proof. unfold external. by intros ->. Qed.

Lemma bind_run_eq {A B} (m : M World A) (k : A → M World B) st a st1 r :
  m st = (Return a, st1) → k a st1 = r → bind m k st = r.
Proof. intros Hm <-. by apply bind_run. Qed.

Lemma try_catch_Return {A} (m : M World A) (h : error → M World A) st a st' :
  m st = (Return a, st') → try_catch m h st = (Return a, st').
Proof. unfold try_catch. by intros ->. Qed.

Lemma try_catch_Throw {A} (m : M World A) (h : error → M World A) st e st1 r :
  m st = (Throw e, st1) → h e st1 = r → try_catch m h st = r.
Proof. unfold try_catch. by intros -> <-. Qed.

Lemma told_external {A} c (f : World → completion A * World) :
  (∀ w e w', f w = (Throw e, w') → message e ≠ "") → told (external c f).
Proof. intros Hf st e st' [w Hw]%external_Throw. eauto. Qed.

Lemma told_try_catch {A} (m : M World A) (h : error → M World A) :
  (∀ e, told (h e)) → told (try_catch m h).
Proof.
  intros Hh st e st'. unfold try_catch.
  destruct (m st) as [[a|e'] st1]; [discriminate | apply Hh].
Qed.

End Steps_external.

Ltac keeps :=
  cbv zeta;
  repeat first
    [ apply keeps_cache_bind; [|intros]
    | apply keeps_cache_try_catch; [|intros]
    | apply keeps_cache_if
    | apply keeps_cache_ret
    | apply keeps_cache_throw
    | apply keeps_cache_lift
    | apply keeps_cache_external
    | apply keeps_cache_now ].

Lemma not_found_told data e : Index.not_found data = Throw e → message e ≠ "".
Proof.
  unfold Index.not_found.
  destruct (get data "status") as [s|] eqn:Hs; [|intros [= <-]; by eapply get_told].
  destruct (negb (is_string s "success")); [discriminate|].
  destruct (get data "tweets") as [t|] eqn:Ht; [|intros [= <-]; by eapply get_told].
  destruct (negb (truthy t)); [discriminate|].
  destruct (get t "length") eqn:Hn; [discriminate | intros [= <-]; by eapply get_told].
Qed.

Ltac tells :=
  cbv zeta;
  repeat first
    [ apply told_bind; [|intros]
    | apply told_try_catch; intros
    | apply told_if
    | apply told_ret
    | apply told_now
    | apply told_throw; discriminate
    | apply told_lift; intros ?;
        first [ apply get_told | apply first_told | apply call_slice0_told
              | apply not_found_told ] ].

Section Item.
Context {World : Type} (svc : Services World).
Implicit Types st : state World.

Lemma formatTweetWithGemini_keeps_cache text :
  keeps_cache (Index.formatTweetWithGemini svc text).
Proof.
  unfold Index.formatTweetWithGemini, Index.formatTweetWithGemini_try,
    Index.formatTweetWithGemini_fallback.
  keeps.
Qed.

Lemma formatTweetWithGemini_keeps_cache' text :
  keeps_cache (Final.formatTweetWithGemini svc text).
Proof.
  unfold Final.formatTweetWithGemini, Final.formatTweetWithGemini_try,
    Final.formatTweetWithGemini_fallback.
  keeps.
Qed.

Lemma formatTweetWithGemini_told text : told (Index.formatTweetWithGemini svc text).
Proof.
  unfold Index.formatTweetWithGemini, Index.formatTweetWithGemini_fallback. tells.
Qed.

Lemma formatTweetWithGemini_told' text : told (Final.formatTweetWithGemini svc text).
Proof.
  unfold Final.formatTweetWithGemini, Final.formatTweetWithGemini_fallback. tells.
Qed.

Lemma processTweetId_keeps_cache tweetId : keeps_cache (Index.processTweetId svc tweetId).
Proof.
  unfold Index.processTweetId, Index.processTweetId_try.
  keeps.
Qed.

Lemma processTweetId_keeps_cache' tweetId : keeps_cache (Final.processTweetId svc tweetId).
Proof.
  unfold Final.processTweetId, Final.processTweetId_try.
  keeps.
Qed.

(** With services whose errors carry a message, so do the errors of an
    attempt. *)
Lemma processTweetId_try_told tweetId :
  outspoken svc → told (Index.processTweetId_try svc tweetId).
Proof.
  intros Hsvc st e st'. unfold Index.processTweetId_try. cbv zeta.
  intros H. apply bind_Throw in H as [H | (response & st1 & Hfetch & H)].
  { apply external_Throw in H as [w Hw]. by eapply fetch_told. }
  apply external_Return in Hfetch as (w & Hw & _).
  match type of H with ?k _ = _ => assert (told k) as Hk; [|by eapply Hk] end.
  tells.
  - apply told_lift. intros e0 Hj. by eapply (json_told svc Hsvc).
  - apply told_external. apply Hsvc.
Qed.

Lemma processTweetId_try_told' tweetId :
  outspoken svc → told (Final.processTweetId_try svc tweetId).
Proof.
  intros Hsvc st e st'. unfold Final.processTweetId_try. cbv zeta.
  intros H. apply bind_Throw in H as [H | (response & st1 & Hfetch & H)].
  { apply external_Throw in H as [w Hw]. by eapply fetch_told. }
  apply external_Return in Hfetch as (w & Hw & _).
  match type of H with ?k _ = _ => assert (told k) as Hk; [|by eapply Hk] end.
  tells.
  - apply told_lift. intros e0 Hj. by eapply (json_told svc Hsvc).
  - apply told_external. apply Hsvc.
Qed.

(** [processTweetId] always returns, a [Success] with the saved document
    when the attempt returned it, a [Failure] with the id it was given and
    the message of the error when the attempt raised one. *)
Lemma processTweetId_run tweetId st :
  ∃ r st', Index.processTweetId svc tweetId st = (Return r, st') ∧
    match Index.processTweetId_try svc tweetId st with
    | (Return savedArticle, st1) => r = Success savedArticle ∧ st' = st1
    | (Throw e, st1) => r = Failure tweetId (message e) ∧ st' = st1
    end.
Proof.
  unfold Index.processTweetId, try_catch, bind.
  destruct (Index.processTweetId_try svc tweetId st) as [[a|e] st1]; by eexists _, _.
Qed.

Lemma processTweetId_run' tweetId st :
  ∃ r st', Final.processTweetId svc tweetId st = (Return r, st') ∧
    match Final.processTweetId_try svc tweetId st with
    | (Return savedArticle, st1) => r = Success savedArticle ∧ st' = st1
    | (Throw e, st1) => r = Failure tweetId (message e) ∧ st' = st1
    end.
Proof.
  unfold Final.processTweetId, try_catch, bind.
  destruct (Final.processTweetId_try svc tweetId st) as [[a|e] st1]; by eexists _, _.
Qed.

Lemma processTweetId_Failure_id tweetId st r st' :
  Index.processTweetId svc tweetId st = (Return r, st') →
  ∀ id reason, r = Failure id reason → id = tweetId.
Proof.
  destruct (processTweetId_run tweetId st) as (r' & st1 & -> & H). intros [= <- <-].
  destruct (Index.processTweetId_try svc tweetId st) as [[a|e] st2];
    destruct H as [-> _]; by intros ? ? [= <- _].
Qed.

Lemma processTweetId_Failure_id' tweetId st r st' :
  Final.processTweetId svc tweetId st = (Return r, st') →
  ∀ id reason, r = Failure id reason → id = tweetId.
Proof.
  destruct (processTweetId_run' tweetId st) as (r' & st1 & -> & H). intros [= <- <-].
  destruct (Final.processTweetId_try svc tweetId st) as [[a|e] st2];
    destruct H as [-> _]; by intros ? ? [= <- _].
Qed.

End Item.





(** ** A batch of ids *)

Lemma successes_failed_ids_length results :
  (length (successes results) + length (failed_ids results))%nat = length results.
Proof.
  induction results as [|[a|id reason] results IH]; simpl; lia.
Qed.

Lemma failures_cons_Failure id reason results :
  failures (Failure id reason :: results) = Failure id reason :: failures results.
Proof. unfold failures. by rewrite filter_cons_True. Qed.

Lemma failures_cons_Success data results :
  failures (Success data :: results) = failures results.
Proof. unfold failures. by rewrite filter_cons_False. Qed.

Lemma successes_failures_length results :
  (length (successes results) + length (failures results))%nat = length results.
Proof.
  induction results as [|[a|id reason] results IH]; [done| |].
  - rewrite failures_cons_Success. simpl. lia.
  - rewrite failures_cons_Failure. simpl. lia.
Qed.

Lemma successes_app rs1 rs2 : successes (rs1 ++ rs2) = (successes rs1 ++ successes rs2)%list.
Proof. apply omap_app. Qed.

Section Attempts.
Context {World : Type} (process : value → M World outcome)
  (mark : value → state World → state World).

Lemma attempts_length ids st results st' :
  attempts process mark ids st results st' → length results = length ids.
Proof. induction 1; simpl; congruence. Qed.

Lemma attempts_Forall2 (P : value → outcome → Prop) ids st results st' :
  (∀ id st r st', process id st = (Return r, st') → P id r) →
  attempts process mark ids st results st' → Forall2 P ids results.
Proof. intros HP. induction 1; constructor; eauto. Qed.

Lemma attempts_deterministic ids st results st' results' st'' :
  attempts process mark ids st results st' →
  attempts process mark ids st results' st'' →
  results' = results ∧ st'' = st'.
Proof.
  intros H. revert results' st''.
  induction H as [|id ids st r st1 rs st2 Hr _ IH]; intros results' st''.
  - by inversion 1.
  - inversion 1 as [|? ? ? r' st1' rs' ? Hr' Hrest]; subst.
    rewrite Hr in Hr'. injection Hr' as <- <-.
    by destruct (IH _ _ Hrest) as [-> ->].
Qed.

End Attempts.

Section Batch.
Context {World : Type} (svc : Services World).
Implicit Types st : state World.

Lemma processIds_run ids : ∀ successfulPosts failedIds st,
  ∃ results st',
    attempts (Index.processTweetId svc) unmarked ids st results st' ∧
    Index.processIds svc ids successfulPosts failedIds st =
      (Return ((successfulPosts ++ successes results)%list,
               (failedIds ++ failed_ids results)%list), st').
Proof.
  induction ids as [|id ids IH]; intros successfulPosts failedIds st.
  - exists [], st. split; [constructor|]. simpl. by rewrite !app_nil_r.
  - destruct (processTweetId_run svc id st) as (r & st1 & Hr & _).
    simpl. rewrite (bind_run _ _ _ _ _ Hr).
    destruct r as [data|id' reason].
    + destruct (IH (successfulPosts ++ [data])%list failedIds st1)
        as (results & st' & Hrest & ->).
      exists (Success data :: results), st'. split; [by econstructor|].
      simpl. by rewrite <- app_assoc.
    + destruct (IH successfulPosts (failedIds ++ [(id', reason)])%list st1)
        as (results & st' & Hrest & ->).
      exists (Failure id' reason :: results), st'. split; [by econstructor|].
      simpl. by rewrite <- app_assoc.
Qed.

Lemma processIds_run' ids : ∀ success failed st,
  ∃ results st',
    attempts (Final.processTweetId svc) unmarked ids st results st' ∧
    Final.processIds svc ids success failed st =
      (Return ((success ++ successes results)%list,
               (failed ++ failures results)%list), st').
Proof.
  induction ids as [|id ids IH]; intros success failed st.
  - exists [], st. split; [constructor|]. simpl. by rewrite !app_nil_r.
  - destruct (processTweetId_run' svc id st) as (r & st1 & Hr & _).
    simpl. rewrite (bind_run _ _ _ _ _ Hr).
    destruct r as [data|id' reason].
    + destruct (IH (success ++ [data])%list failed st1) as (results & st' & Hrest & ->).
      exists (Success data :: results), st'. split; [by econstructor|].
      rewrite failures_cons_Success. simpl. by rewrite <- app_assoc.
    + destruct (IH success (failed ++ [Failure id' reason])%list st1)
        as (results & st' & Hrest & ->).
      exists (Failure id' reason :: results), st'. split; [by econstructor|].
      rewrite failures_cons_Failure. simpl. by rewrite <- app_assoc.
Qed.

(** The POST route of the first variant runs the batch on a non-empty
    array of ids. *)
Lemma post_fetch_tweet_and_save_run body id ids st :
  get body "tweet_ids" = Return (VArr (id :: ids)) →
  ∃ results st',
    attempts (Index.processTweetId svc) unmarked (id :: ids) st results st' ∧
    Index.post_fetch_tweet_and_save svc body st =
      (Return {| Index.http := 200;
                 Index.sent :=
                   Index.Ingested
                     (Index.processed_message (length (successes results))
                                              (length (id :: ids)))
                     (successes results) (failed_ids results) |}, st').
Proof.
  intros Hbody.
  destruct (processIds_run (id :: ids) [] [] st) as (results & st' & Hatt & Hrun).
  exists results, st'. split; [done|].
  unfold Index.post_fetch_tweet_and_save.
  erewrite bind_run by (unfold lift; by rewrite Hbody).
  rewrite is_zero_length. cbn [truthy isArray negb orb iterate].
  rewrite bool_decide_eq_false_2 by done.
  erewrite bind_run by reflexivity.
  by erewrite bind_run by exact Hrun.
Qed.

Lemma post_fetch_tweet_and_save_run' body ids st :
  get body "tweet_ids" = Return (VArr ids) →
  ∃ results st',
    attempts (Final.processTweetId svc) unmarked ids st results st' ∧
    Final.post_fetch_tweet_and_save svc body st =
      (Return {| Final.http := 200;
                 Final.sent := Final.Ingested (successes results) (failures results) |},
       st').
Proof.
  intros Hbody.
  destruct (processIds_run' ids [] [] st) as (results & st' & Hatt & Hrun).
  exists results, st'. split; [done|].
  unfold Final.post_fetch_tweet_and_save.
  erewrite bind_run by (unfold lift; by rewrite Hbody).
  cbn [truthy negb iterate].
  erewrite bind_run by reflexivity.
  by erewrite bind_run by exact Hrun.
Qed.

End Batch.

Section Batch_results.
Context {World : Type} (svc : Services World).
Implicit Types st : state World.

Lemma attempts_batch ids st results st' :
  attempts (Index.processTweetId svc) unmarked ids st results st' →
  batch (Index.processTweetId_try svc) ids st results st'.
Proof.
  induction 1 as [|id ids st r st1 rs st2 Hr _ IH]; [constructor|].
  destruct (processTweetId_run svc id st) as (r' & st1' & Hr' & H).
  rewrite Hr in Hr'. injection Hr' as <- <-.
  destruct (Index.processTweetId_try svc id st) as [[doc|e] st3] eqn:Htry;
    destruct H as [-> ->]; econstructor; eauto.
Qed.

Lemma attempts_batch' ids st results st' :
  attempts (Final.processTweetId svc) unmarked ids st results st' →
  batch (Final.processTweetId_try svc) ids st results st'.
Proof.
  induction 1 as [|id ids st r st1 rs st2 Hr _ IH]; [constructor|].
  destruct (processTweetId_run' svc id st) as (r' & st1' & Hr' & H).
  rewrite Hr in Hr'. injection Hr' as <- <-.
  destruct (Final.processTweetId_try svc id st) as [[doc|e] st3] eqn:Htry;
    destruct H as [-> ->]; econstructor; eauto.
Qed.

Lemma batch_length (try_ : value → M World Article) ids st results st' :
  batch try_ ids st results st' → length results = length ids.
Proof. induction 1; simpl; congruence. Qed.

Lemma batch_reasons (try_ : value → M World Article) ids st results st' :
  (∀ id, told (try_ id)) →
  batch try_ ids st results st' → Forall (λ reason, reason ≠ "") (reasons results).
Proof.
  intros Htold. induction 1 as [| |id ids st e st1 rs st2 Htry _ IH]; simpl.
  - constructor.
  - done.
  - constructor; [by eapply Htold | done].
Qed.

End Batch_results.

(** C2, for ids that are strings, with the length of the list for the
    size of the set.  For every list of such ids, the batch loop of either
    variant attempts each element of the list once, in order, each attempt
    starting where the one before it ended, and runs to its end.  Each
    attempt yields exactly one result: a [Success] with the saved document,
    which is pushed on the list of successes, or a [Failure] with this very
    id and, as reason, the message of the error raised, which is pushed on
    the list of failures.  The two lists together are as long as the list
    of ids, and no reason is empty, given that the errors of the services
    carry a message. *)
Theorem processIds_partition {World} (svc : Services World) (ids : list string)
    (st : state World) :
  (∃ results st',
     batch (Index.processTweetId_try svc) (VStr <$> ids) st results st' ∧
     Index.processIds svc (VStr <$> ids) [] [] st =
       (Return (successes results, failed_ids results), st') ∧
     length results = length ids ∧
     (length (successes results) + length (failed_ids results))%nat = length ids ∧
     (outspoken svc → Forall (λ reason, reason ≠ "") (reasons results))) ∧
  (∃ results st',
     batch (Final.processTweetId_try svc) (VStr <$> ids) st results st' ∧
     Final.processIds svc (VStr <$> ids) [] [] st =
       (Return (successes results, failures results), st') ∧
     length results = length ids ∧
     (length (successes results) + length (failures results))%nat = length ids ∧
     (outspoken svc → Forall (λ reason, reason ≠ "") (reasons results))).
Proof.
  split.
  - destruct (processIds_run svc (VStr <$> ids) [] [] st)
      as (results & st' & Hatt%attempts_batch & Hrun).
    pose proof (batch_length _ _ _ _ _ Hatt) as Hlen. rewrite length_fmap in Hlen.
    exists results, st'. repeat split; [done|done|done| |].
    + by rewrite successes_failed_ids_length.
    + intros Hsvc. eapply batch_reasons; [|done].
      intros id. by apply processTweetId_try_told.
  - destruct (processIds_run' svc (VStr <$> ids) [] [] st)
      as (results & st' & Hatt%attempts_batch' & Hrun).
    pose proof (batch_length _ _ _ _ _ Hatt) as Hlen. rewrite length_fmap in Hlen.
    exists results, st'. repeat split; [done|done|done| |].
    + by rewrite successes_failures_length.
    + intros Hsvc. eapply batch_reasons; [|done].
      intros id. by apply processTweetId_try_told'.
Qed.

(** C2 does not hold with the size of the set of ids: an id that occurs
    twice in the list is attempted twice.  With a store that holds the
    unique index on [tweetId], the first attempt of the id "7" saves the
    document and the second is refused as a duplicate: the one id is in
    both lists, which together hold two entries. *)
Lemma processIds_repeated_id :
  ∃ doc doc' st' st'',
    Index.processIds unique_store [VStr "7"; VStr "7"] [] [] (boot false) =
      (Return ([doc], [(VStr "7", "E11000 duplicate key error collection")]), st') ∧
    tweetId doc = VStr "7" ∧
    Final.processIds unique_store [VStr "7"; VStr "7"] [] [] (boot false) =
      (Return ([doc'], [Failure (VStr "7") "E11000 duplicate key error collection"]),
       st'') ∧
    tweetId doc' = VStr "7".
Proof.
  eexists _, _, _, _.
  split; [vm_compute; reflexivity|]. split; [reflexivity|].
  split; [vm_compute; reflexivity|]. reflexivity.
Qed.

(** ** Duplicate keys *)




(** ** The cache *)






Lemma attempts_marked_cache {World} (process : value → M World outcome) now
    ids st results st' :
  (∀ id, keeps_cache (process id)) →
  attempts process (marked now) ids st results st' →
  processedTweetCache st' = mark_all now ids (processedTweetCache st).
Proof.
  intros Hkeeps. induction 1 as [|id ids st r st1 rs st2 Hr _ IH]; [done|].
  rewrite IH. simpl. by rewrite (Hkeeps _ _ _ _ Hr).
Qed.

(** ** A feed of an author *)

Lemma due_cons cache now tweet tweets :
  due cache now (tweet :: tweets) =
    if cached_at cache now (id_of tweet) then due cache now tweets
    else tweet :: due cache now tweets.
Proof.
  unfold due. destruct (cached_at cache now (id_of tweet)) eqn:Hc.
  - rewrite filter_cons_False; [done | by rewrite Hc].
  - by rewrite filter_cons_True.
Qed.

Lemma held_back_cons cache now tweet tweets :
  held_back cache now (tweet :: tweets) =
    if cached_at cache now (id_of tweet) then tweet :: held_back cache now tweets
    else held_back cache now tweets.
Proof.
  unfold held_back. destruct (cached_at cache now (id_of tweet)) eqn:Hc.
  - by rewrite filter_cons_True.
  - rewrite filter_cons_False; [done | by rewrite Hc].
Qed.

Section Author.
Context {World : Type} (svc : Services World).
Implicit Types st : state World.

Lemma filterTweets_run now tweets :
  Forall (λ tweet, nullish tweet = false) tweets →
  ∀ tweetsToProcess skippedCachedIds st,
    Index.filterTweets now tweets tweetsToProcess skippedCachedIds st =
      (Return ((tweetsToProcess ++ due (processedTweetCache st) now tweets)%list,
               (skippedCachedIds ++
                  (id_of <$> held_back (processedTweetCache st) now tweets))%list), st).
Proof.
  induction 1 as [|tweet tweets Htweet _ IH]; intros tweetsToProcess skippedCachedIds st.
  - simpl. by rewrite !app_nil_r.
  - rewrite due_cons, held_back_cons.
    simpl. unfold bind at 1, lift at 1. rewrite (get_nullish _ _ Htweet).
    unfold bind at 1, cache_get at 1. fold (id_of tweet).
    fold (cached_at (processedTweetCache st) now (id_of tweet)).
    destruct (cached_at (processedTweetCache st) now (id_of tweet)) eqn:Hc.
    + rewrite IH. simpl. by rewrite <- app_assoc.
    + rewrite IH. simpl. by rewrite <- app_assoc.
Qed.

Lemma filterTweets_run' now tweets :
  Forall (λ tweet, nullish tweet = false) tweets →
  ∀ toProcess skipped st,
    Final.filterTweets now tweets toProcess skipped st =
      (Return ((toProcess ++ due (processedTweetCache st) now tweets)%list,
               (skipped ++ (id_of <$> held_back (processedTweetCache st) now tweets))%list),
       st).
Proof.
  induction 1 as [|tweet tweets Htweet _ IH]; intros toProcess skipped st.
  - simpl. by rewrite !app_nil_r.
  - rewrite due_cons, held_back_cons.
    simpl. unfold bind at 1, lift at 1. rewrite (get_nullish _ _ Htweet).
    unfold bind at 1, cache_get at 1. fold (id_of tweet).
    fold (cached_at (processedTweetCache st) now (id_of tweet)).
    destruct (cached_at (processedTweetCache st) now (id_of tweet)) eqn:Hc.
    + rewrite IH. simpl. by rewrite <- app_assoc.
    + rewrite IH. simpl. by rewrite <- app_assoc.
Qed.

Lemma processTweets_run now tweets :
  Forall (λ tweet, nullish tweet = false) tweets →
  ∀ successfulPosts failedIds st,
    ∃ results st',
      attempts (Index.processTweetId svc) (marked now) (id_of <$> tweets) st results st' ∧
      Index.processTweets svc now tweets successfulPosts failedIds st =
        (Return ((successfulPosts ++ successes results)%list,
                 (failedIds ++ failed_ids results)%list), st').
Proof.
  induction 1 as [|tweet tweets Htweet _ IH]; intros successfulPosts failedIds st.
  - exists [], st. split; [constructor|]. simpl. by rewrite !app_nil_r.
  - destruct (processTweetId_run svc (id_of tweet) st) as (r & st1 & Hr & _).
    simpl. unfold bind at 1, lift at 1. rewrite (get_nullish _ _ Htweet).
    fold (id_of tweet). rewrite (bind_run _ _ _ _ _ Hr).
    destruct r as [data|id' reason].
    + destruct (IH (successfulPosts ++ [data])%list failedIds (marked now (id_of tweet) st1))
        as (results & st' & Hrest & Hrun).
      exists (Success data :: results), st'. split; [by econstructor|].
      unfold bind at 1, cache_set at 1. fold (marked now (id_of tweet) st1).
      rewrite Hrun. simpl. by rewrite <- app_assoc.
    + destruct (IH successfulPosts (failedIds ++ [(id', reason)])%list
                  (marked now (id_of tweet) st1))
        as (results & st' & Hrest & Hrun).
      exists (Failure id' reason :: results), st'. split; [by econstructor|].
      unfold bind at 1, cache_set at 1. fold (marked now (id_of tweet) st1).
      rewrite Hrun. simpl. by rewrite <- app_assoc.
Qed.

Lemma processTweets_run' now tweets :
  Forall (λ tweet, nullish tweet = false) tweets →
  ∀ success failed st,
    ∃ results st',
      attempts (Final.processTweetId svc) (marked now) (id_of <$> tweets) st results st' ∧
      Final.processTweets svc now tweets success failed st =
        (Return ((success ++ successes results)%list,
                 (failed ++ failures results)%list), st').
Proof.
  induction 1 as [|tweet tweets Htweet _ IH]; intros success failed st.
  - exists [], st. split; [constructor|]. simpl. by rewrite !app_nil_r.
  - destruct (processTweetId_run' svc (id_of tweet) st) as (r & st1 & Hr & _).
    simpl. unfold bind at 1, lift at 1. rewrite (get_nullish _ _ Htweet).
    fold (id_of tweet). rewrite (bind_run _ _ _ _ _ Hr).
    destruct r as [data|id' reason].
    + destruct (IH (success ++ [data])%list failed (marked now (id_of tweet) st1))
        as (results & st' & Hrest & Hrun).
      exists (Success data :: results), st'. split; [by econstructor|].
      unfold bind at 1, lift at 1.
      unfold bind at 1, cache_set at 1. fold (marked now (id_of tweet) st1).
      rewrite Hrun, failures_cons_Success. simpl. by rewrite <- app_assoc.
    + destruct (IH success (failed ++ [Failure id' reason])%list
                  (marked now (id_of tweet) st1))
        as (results & st' & Hrest & Hrun).
      exists (Failure id' reason :: results), st'. split; [by econstructor|].
      unfold bind at 1, lift at 1.
      unfold bind at 1, cache_set at 1. fold (marked now (id_of tweet) st1).
      rewrite Hrun, failures_cons_Failure. simpl. by rewrite <- app_assoc.
Qed.

Lemma due_not_nullish cache now tweets :
  Forall (λ tweet, nullish tweet = false) tweets →
  Forall (λ tweet, nullish tweet = false) (due cache now tweets).
Proof.
  rewrite !Forall_forall. intros H tweet [_ Hin]%list_elem_of_filter. by apply H.
Qed.

(** Steps 2 to 4 of the first variant: the items held back are reported,
    the others are attempted in order, each attempt followed by the mark. *)
Lemma processUserTweets_run tweets st now w :
  Date_now svc (world st) = (now, w) →
  Forall (λ tweet, nullish tweet = false) tweets →
  ∃ results st',
    attempts (Index.processTweetId svc) (marked now)
             (id_of <$> due (processedTweetCache st) now tweets) (ticked st w) results st' ∧
    Index.processUserTweets svc (VArr tweets) st =
      (Return {| Index.http := 200;
                 Index.sent :=
                   Index.IngestedAuthor
                     (Index.author_message svc (VNum (number_of_nat (length tweets)))
                        (length (successes results)) (length (failed_ids results))
                        (length (held_back (processedTweetCache st) now tweets)))
                     (successes results) (failed_ids results)
                     (id_of <$> held_back (processedTweetCache st) now tweets) |}, st').
Proof.
  intros Hnow Htweets.
  destruct (processTweets_run now (due (processedTweetCache st) now tweets)
              (due_not_nullish _ _ _ Htweets) [] [] (ticked st w))
    as (results & st' & Hatt & Hrun).
  exists results, st'. split; [done|].
  unfold Index.processUserTweets.
  unfold bind at 1, date_now at 1. rewrite Hnow. fold (ticked st w).
  unfold bind at 1, lift at 1, iterate.
  unfold bind at 1. rewrite filterTweets_run by done. simpl app.
  unfold bind at 1. rewrite Hrun. simpl app.
  unfold bind, lift, ret, get. rewrite bool_decide_eq_true_2 by done.
  by rewrite length_fmap.
Qed.

Lemma processUserTweets_run' tweets st now w :
  Date_now svc (world st) = (now, w) →
  Forall (λ tweet, nullish tweet = false) tweets →
  ∃ results st',
    attempts (Final.processTweetId svc) (marked now)
             (id_of <$> due (processedTweetCache st) now tweets) (ticked st w) results st' ∧
    Final.processUserTweets svc tweets st =
      (Return {| Final.http := 200;
                 Final.sent :=
                   Final.IngestedAuthor (successes results) (failures results)
                     (id_of <$> held_back (processedTweetCache st) now tweets) |}, st').
Proof.
  intros Hnow Htweets.
  destruct (processTweets_run' now (due (processedTweetCache st) now tweets)
              (due_not_nullish _ _ _ Htweets) [] [] (ticked st w))
    as (results & st' & Hatt & Hrun).
  exists results, st'. split; [done|].
  unfold Final.processUserTweets.
  unfold bind at 1, date_now at 1. rewrite Hnow. fold (ticked st w).
  unfold bind at 1. rewrite filterTweets_run' by done. simpl app.
  unfold bind at 1. by rewrite Hrun.
Qed.

End Author.













(** ** Payloads without tweets *)

Lemma normalize_no_array data : holds_no_array data → Final.normalize data = [].
Proof.
  intros (H1 & H2 & H3). unfold Final.normalize, coalesce.
  destruct (nullish (get_opt data "tweets")); [|by destruct (get_opt data "tweets")].
  destruct (nullish (get_opt (get_opt data "data") "tweets"));
    [|by destruct (get_opt (get_opt data "data") "tweets")].
  destruct (nullish (get_opt data "items")); [done|].
  by destruct (get_opt data "items").
Qed.

Lemma holds_no_array_not_object data :
  (∀ fields, data ≠ VObj fields) → holds_no_array data.
Proof.
  intros Hdata. destruct data as [| | | | | |fields];
    [(split; [|split]); vm_compute; reflexivity .. | by destruct (Hdata fields)].
Qed.

Lemma no_tweets_told data e : Index.no_tweets data = Throw e → message e ≠ "".
Proof.
  unfold Index.no_tweets.
  destruct (get data "status") as [s|] eqn:Hs; [|intros [= <-]; by eapply get_told].
  destruct (negb (is_string s "success")); [discriminate|].
  destruct (get data "tweets") as [t|] eqn:Ht; [discriminate|].
  intros [= <-]. by eapply get_told.
Qed.

Section Feed.
Context {World : Type} (svc : Services World).
Implicit Types st : state World.

(** After the feed was fetched and found in order, the first variant
    answers what steps 2 to 4 answer. *)
Lemma fetch_user_last_tweets_run query userName response w data tweets st reply st' :
  get query "userName" = Return userName → truthy userName = true →
  fetch svc (user_url svc userName) (world st) = (Return response, w) →
  ok response = true →
  json response = Return data →
  Index.no_tweets data = Return false →
  get data "tweets" = Return tweets →
  Index.processUserTweets svc tweets (called st (CallFetch (user_url svc userName)) w)
    = (Return reply, st') →
  Index.fetch_user_last_tweets svc query st = (Return reply, st').
Proof.
  intros Hq Hu Hfetch Hok Hjson Hdata Htweets Hrun.
  unfold Index.fetch_user_last_tweets.
  eapply bind_run_eq; [unfold lift; by rewrite Hq|]. rewrite Hu.
  apply try_catch_Return.
  eapply bind_run_eq; [exact (external_run _ _ _ _ _ Hfetch)|]. rewrite Hok.
  eapply bind_run_eq; [unfold lift; by rewrite Hjson|].
  eapply bind_run_eq; [unfold lift; by rewrite Hdata|].
  eapply bind_run_eq; [unfold lift; by rewrite Htweets|].
  exact Hrun.
Qed.

Lemma fetch_user_last_tweets_run' query userName response w data st reply st' :
  get query "userName" = Return userName → truthy userName = true →
  fetch svc (user_url svc userName) (world st) = (Return response, w) →
  json response = Return data →
  Final.processUserTweets svc (Final.normalize data)
    (called st (CallFetch (user_url svc userName)) w) = (Return reply, st') →
  Final.fetch_user_last_tweets svc query st = (Return reply, st').
Proof.
  intros Hq Hu Hfetch Hjson Hrun.
  unfold Final.fetch_user_last_tweets.
  eapply bind_run_eq; [unfold lift; by rewrite Hq|]. rewrite Hu.
  apply try_catch_Return.
  eapply bind_run_eq; [exact (external_run _ _ _ _ _ Hfetch)|].
  eapply bind_run_eq; [unfold lift; by rewrite Hjson|].
  exact Hrun.
Qed.

End Feed.

(** C7, variant by variant.  For every author handle, when the feed is fetched:
    in the second variant, a payload that holds an array in none of
    [tweets], [data.tweets] and [items] is normalized to the empty list, and
    on an empty list the handler answers 200 with empty lists of successes,
    failures and skipped ids, having called nothing but the feed; a body
    that does not parse is answered 500 with the message of the error.  In
    the first variant a payload whose [status] is not "success" or that has
    no [tweets] is answered 500, and an empty array of [tweets] is answered
    200 with empty lists. *)
Theorem payload_without_tweets {World} (svc : Services World) (query userName : value)
    (response : Response) (st : state World) (w : World) :
  get query "userName" = Return userName →
  truthy userName = true →
  fetch svc (user_url svc userName) (world st) = (Return response, w) →
  let fetched := called st (CallFetch (user_url svc userName)) w in
  (∀ data, holds_no_array data → Final.normalize data = []) ∧
  (∀ data now w',
     json response = Return data → Final.normalize data = [] →
     Date_now svc w = (now, w') →
     Final.fetch_user_last_tweets svc query st = (Return nothing_done, ticked fetched w')) ∧
  (∀ e, json response = Throw e →
     Final.fetch_user_last_tweets svc query st =
       (Return {| Final.http := 500; Final.sent := Final.ErrorOnly (message e) |}, fetched)) ∧
  (∀ data, ok response = true → json response = Return data →
     Index.no_tweets data = Return true →
     Index.fetch_user_last_tweets svc query st = (Return not_found_500, fetched)) ∧
  (∀ data now w',
     ok response = true → json response = Return data →
     Index.no_tweets data = Return false → get data "tweets" = Return (VArr []) →
     Date_now svc w = (now, w') →
     Index.fetch_user_last_tweets svc query st =
       (Return {| Index.http := 200;
                  Index.sent :=
                    Index.IngestedAuthor
                      (Index.author_message svc (VNum (number_of_nat 0)) 0 0 0) [] [] [] |},
        ticked fetched w')).
Proof.
  intros Hq Hu Hfetch fetched. repeat split.
  - apply normalize_no_array.
  - intros data now w' Hjson Hdata Hnow.
    eapply fetch_user_last_tweets_run'; try done.
    rewrite Hdata. unfold Final.processUserTweets.
    unfold bind at 1, date_now at 1. fold fetched. simpl world. by rewrite Hnow.
  - intros e Hjson. unfold Final.fetch_user_last_tweets.
    eapply bind_run_eq; [unfold lift; by rewrite Hq|]. rewrite Hu.
    eapply try_catch_Throw.
    { eapply bind_run_eq; [exact (external_run _ _ _ _ _ Hfetch)|].
      apply bind_fail. unfold lift. by rewrite Hjson. }
    reflexivity.
  - intros data Hok Hjson Hdata. unfold Index.fetch_user_last_tweets.
    eapply bind_run_eq; [unfold lift; by rewrite Hq|]. rewrite Hu.
    eapply try_catch_Throw.
    { eapply bind_run_eq; [exact (external_run _ _ _ _ _ Hfetch)|]. rewrite Hok.
      eapply bind_run_eq; [unfold lift; by rewrite Hjson|].
      eapply bind_run_eq; [unfold lift; by rewrite Hdata|].
      reflexivity. }
    reflexivity.
  - intros data now w' Hok Hjson Hdata Htweets Hnow.
    eapply fetch_user_last_tweets_run; try done.
    unfold Index.processUserTweets.
    unfold bind at 1, date_now at 1. simpl world. by rewrite Hnow.
Qed.

(** The payload [{}]. *)
Lemma payload_without_tweets_witness :
  (Final.normalize (VObj []) = [] ∧ Final.normalize (VStr "Bad Gateway") = []) ∧
  (∃ st', Final.fetch_user_last_tweets (scripted empty_payload)
            (VObj [("userName", VStr "bigtvtelugu")]) (boot 0) = (Return nothing_done, st')) ∧
  (∃ st', Index.fetch_user_last_tweets (scripted empty_payload)
            (VObj [("userName", VStr "bigtvtelugu")]) (boot 0) = (Return not_found_500, st')).
Proof.
  destruct (payload_without_tweets (scripted empty_payload)
              (VObj [("userName", VStr "bigtvtelugu")]) (VStr "bigtvtelugu")
              {| ok := true; status := 200; json := Return (VObj []) |} (boot 0) 0)
    as (Hnormal & Hfinal & _ & Hindex & _); [reflexivity | reflexivity | reflexivity |].
  split; [|split].
  - split; apply Hnormal.
    + by repeat split.
    + by apply holds_no_array_not_object.
  - eexists. by apply (Hfinal (VObj []) 0 1).
  - eexists. by apply (Hindex (VObj [])).
Defined.

(** C7 does not hold of the first variant: a payload without [status]
    and [tweets] is answered with an error, 500. *)
Lemma fetch_user_last_tweets_empty_payload_500 :
  ∃ st',
    Index.fetch_user_last_tweets (scripted empty_payload)
      (VObj [("userName", VStr "bigtvtelugu")]) (boot 0)
    = (Return {| Index.http := 500;
                 Index.sent := Index.ErrorDetails "Failed to process user's last tweets"
                                                  "Not found or Twitter API error" |}, st').
Proof. eexists. vm_compute. reflexivity. Qed.

(** ** Requests that miss a field *)

Lemma get_Return_other v k x k' : get v k = Return x → ∃ y, get v k' = Return y.
Proof. intros H%get_Return_nullish. rewrite (get_nullish _ _ H). eauto. Qed.

(** C6, route by route.  A request that misses its required field is answered
    with 400, without any call to a service and without any change of the
    state, by every route of the first variant ([tweet_ids] in the body or
    in the query, [userName], [text] or [instruction]) and, in the second
    variant, by the POST route of the ingest ([tweet_ids]) and by the route
    of an author ([userName]).  The GET route of the ingest of the second
    variant takes a missing [tweet_ids] for an empty list and answers 200
    with two empty lists, and its debug route answers 200 with an error
    body; neither calls a service. *)
Theorem missing_field_is_rejected {World} (svc : Services World) (st : state World) :
  (∀ body, get body "tweet_ids" = Return VUndefined →
     Index.post_fetch_tweet_and_save svc body st =
       (Return (bad_request "tweet_ids must be a non-empty array."), st)) ∧
  (∀ query, get query "tweet_ids" = Return VUndefined →
     Index.get_fetch_tweet_and_save svc query st =
       (Return (bad_request "tweet_ids query parameter is required."), st)) ∧
  (∀ query, get query "userName" = Return VUndefined →
     Index.fetch_user_last_tweets svc query st =
       (Return (bad_request "username query parameter is required."), st)) ∧
  (∀ body, get body "text" = Return VUndefined ∨ get body "instruction" = Return VUndefined →
     Index.summarize_text svc body st =
       (Return (bad_request
                  "Both 'text' and 'instruction' are required in the request body."), st)) ∧
  (∀ body, get body "tweet_ids" = Return VUndefined →
     Final.post_fetch_tweet_and_save svc body st =
       (Return (bad_request' "tweet_ids required"), st)) ∧
  (∀ query, get query "userName" = Return VUndefined →
     Final.fetch_user_last_tweets svc query st =
       (Return (bad_request' "username required"), st)) ∧
  (∀ query, get query "tweet_ids" = Return VUndefined →
     Final.get_fetch_tweet_and_save svc query st =
       (Return {| Final.http := 200; Final.sent := Final.Ingested [] [] |}, st)) ∧
  (∀ query, get query "userName" = Return VUndefined →
     Final.debug_twitterapi svc query st =
       (Return {| Final.http := 200; Final.sent := Final.ErrorOnly "username required" |},
        st)).
Proof.
  repeat split.
  - intros body H. unfold Index.post_fetch_tweet_and_save.
    eapply bind_run_eq; [unfold lift; by rewrite H|]. reflexivity.
  - intros query H. unfold Index.get_fetch_tweet_and_save.
    eapply bind_run_eq; [unfold lift; by rewrite H|]. reflexivity.
  - intros query H. unfold Index.fetch_user_last_tweets.
    eapply bind_run_eq; [unfold lift; by rewrite H|]. reflexivity.
  - intros body H. unfold Index.summarize_text.
    destruct H as [H|H].
    + destruct (get_Return_other _ _ _ "instruction" H) as [instruction H'].
      eapply bind_run_eq; [unfold lift; by rewrite H|].
      eapply bind_run_eq; [unfold lift; by rewrite H'|]. reflexivity.
    + destruct (get_Return_other _ _ _ "text" H) as [text H'].
      eapply bind_run_eq; [unfold lift; by rewrite H'|].
      eapply bind_run_eq; [unfold lift; by rewrite H|].
      cbn [truthy negb]. by rewrite orb_true_r.
  - intros body H. unfold Final.post_fetch_tweet_and_save.
    eapply bind_run_eq; [unfold lift; by rewrite H|]. reflexivity.
  - intros query H. unfold Final.fetch_user_last_tweets.
    eapply bind_run_eq; [unfold lift; by rewrite H|]. reflexivity.
  - intros query H. unfold Final.get_fetch_tweet_and_save, Final.query_ids.
    rewrite H. reflexivity.
  - intros query H. unfold Final.debug_twitterapi.
    eapply bind_run_eq; [unfold lift; by rewrite H|]. reflexivity.
Qed.

(** Bodies and queries without the field. *)
Lemma missing_field_is_rejected_witness :
  Index.post_fetch_tweet_and_save (scripted (online ["1"])) (VObj []) (boot 0) =
    (Return (bad_request "tweet_ids must be a non-empty array."), boot 0) ∧
  Index.summarize_text (scripted (online ["1"])) (VObj [("text", VStr "hello")]) (boot 0) =
    (Return (bad_request "Both 'text' and 'instruction' are required in the request body."),
     boot 0) ∧
  Final.fetch_user_last_tweets (scripted (online ["1"])) (VObj []) (boot 0) =
    (Return (bad_request' "username required"), boot 0).
Proof.
  destruct (missing_field_is_rejected (scripted (online ["1"])) (boot 0))
    as (Hpost & _ & _ & Htext & _ & Huser & _).
  split; [|split].
  - by apply Hpost.
  - apply Htext. by right.
  - by apply Huser.
Defined.

(** C6 does not hold of the second variant: its free-text route does
    not look at the body, so that a request without [text] and
    [instruction] reaches the generative-text service and is answered 200. *)
Lemma summarize_text_unchecked :
  ∃ data st',
    Final.summarize_text (scripted offline) (VObj []) (boot 0) =
      (Return {| Final.http := 200; Final.sent := Final.Transformed data |}, st') ∧
    calls st' = [CallGemini (Final.text_prompt (scripted offline) VUndefined VUndefined)].
Proof. eexists _, _. split; [vm_compute; reflexivity | reflexivity]. Qed.

(** ** What the hypotheses on the feed and on the cache leave out *)

(** A process starts with a stamped cache, and the pipeline keeps the cache
    stamped as long as the clock does not read zero. *)
Lemma stamped_boot {World} (w : World) : stamped (processedTweetCache (boot w)).
Proof. apply map_Forall_empty. Qed.

Lemma stamped_mark_all now ids : ∀ cache,
  now ≠ 0 → stamped cache → stamped (mark_all now ids cache).
Proof.
  induction ids as [|id ids IH]; intros cache Hnow Hcache; [done|].
  simpl. apply IH; [done|]. unfold Map_set.
  destruct (as_key id) as [k|]; [|done]. by apply map_Forall_insert_2.
Qed.

(** An entry written when the clock read zero is not seen by the test of
    lines 381 and 812. *)
Example epoch_entry_not_held :
  Map_get (VStr "1") {[ KStr "1" := 0 ]} = Some 0 ∧
  cached_at {[ KStr "1" := 0 ]} 5 (VStr "1") = false.
Proof. split; reflexivity. Qed.

Section Null_items.
Context {World : Type} (svc : Services World).
Implicit Types st : state World.

(** A feed with a [null] among its items makes the first loop raise at the
    read of [tweet.id], before anything is attempted or marked. *)
Lemma filterTweets_null now tweets :
  Exists (λ tweet, nullish tweet = true) tweets →
  ∀ tweetsToProcess skippedCachedIds st,
    ∃ e, Index.filterTweets now tweets tweetsToProcess skippedCachedIds st = (Throw e, st).
Proof.
  induction tweets as [|tweet tweets IH]; intros Hnull tweetsToProcess skippedCachedIds st;
    [by inversion Hnull|].
  simpl. destruct (nullish tweet) eqn:Htweet.
  - destruct tweet; try discriminate; by eexists.
  - apply Exists_cons in Hnull as [Hnull|Hnull]; [congruence|].
    unfold bind at 1, lift at 1. rewrite (get_nullish _ _ Htweet).
    unfold bind at 1, cache_get at 1.
    destruct (recently now _); by apply IH.
Qed.

Lemma filterTweets_null' now tweets :
  Exists (λ tweet, nullish tweet = true) tweets →
  ∀ toProcess skipped st,
    ∃ e, Final.filterTweets now tweets toProcess skipped st = (Throw e, st).
Proof.
  induction tweets as [|tweet tweets IH]; intros Hnull toProcess skipped st;
    [by inversion Hnull|].
  simpl. destruct (nullish tweet) eqn:Htweet.
  - destruct tweet; try discriminate; by eexists.
  - apply Exists_cons in Hnull as [Hnull|Hnull]; [congruence|].
    unfold bind at 1, lift at 1. rewrite (get_nullish _ _ Htweet).
    unfold bind at 1, cache_get at 1.
    destruct (recently now _); by apply IH.
Qed.

Lemma processUserTweets_null tweets st now w :
  Date_now svc (world st) = (now, w) →
  Exists (λ tweet, nullish tweet = true) tweets →
  ∃ e, Index.processUserTweets svc (VArr tweets) st = (Throw e, ticked st w).
Proof.
  intros Hnow Hnull.
  destruct (filterTweets_null now tweets Hnull [] [] (ticked st w)) as [e He].
  exists e. unfold Index.processUserTweets.
  unfold bind at 1, date_now at 1. rewrite Hnow. fold (ticked st w).
  unfold bind at 1, lift at 1, iterate.
  by rewrite (bind_fail _ _ _ _ _ He).
Qed.

Lemma processUserTweets_null' tweets st now w :
  Date_now svc (world st) = (now, w) →
  Exists (λ tweet, nullish tweet = true) tweets →
  ∃ e, Final.processUserTweets svc tweets st = (Throw e, ticked st w).
Proof.
  intros Hnow Hnull.
  destruct (filterTweets_null' now tweets Hnull [] [] (ticked st w)) as [e He].
  exists e. unfold Final.processUserTweets.
  unfold bind at 1, date_now at 1. rewrite Hnow. fold (ticked st w).
  by rewrite (bind_fail _ _ _ _ _ He).
Qed.

End Null_items.

(** * Further properties *)

(** ** Taking a computation apart *)

Section Inversion.
Context {World : Type}.
Implicit Types st : state World.

Lemma bind_inv {A B} (m : M World A) (k : A → M World B) st r st' :
  bind m k st = (r, st') →
  ∃ r1 st1, m st = (r1, st1) ∧
    match r1 with
    | Return a => k a st1 = (r, st')
    | Throw e => r = Throw e ∧ st' = st1
    end.
Proof.
  unfold bind. destruct (m st) as [[a|e] st1]; intros H; eexists _, _; split; try done.
  by injection H as <- <-.
Qed.

Lemma bind_lift_inv {A B} (x : completion A) (k : A → M World B) st r st' :
  bind (lift x) k st = (r, st') →
  (∃ a, x = Return a ∧ k a st = (r, st')) ∨ (∃ e, x = Throw e ∧ r = Throw e ∧ st' = st).
Proof.
  unfold bind, lift. destruct x as [a|e]; [eauto|]. intros [= <- <-]. eauto.
Qed.

Lemma bind_external_inv {A B} c (f : World → completion A * World) (k : A → M World B)
    st r st' :
  bind (external c f) k st = (r, st') →
  ∃ w, (∃ a, f (world st) = (Return a, w) ∧ k a (called st c w) = (r, st')) ∨
       (∃ e, f (world st) = (Throw e, w) ∧ r = Throw e ∧ st' = called st c w).
Proof.
  unfold bind, external. destruct (f (world st)) as [[a|e] w]; intros H; exists w.
  - left. eauto.
  - right. injection H as <- <-. eauto.
Qed.

Lemma external_inv {A} c (f : World → completion A * World) st r st' :
  external c f st = (r, st') → ∃ w, f (world st) = (r, w) ∧ st' = called st c w.
Proof.
  unfold external. destruct (f (world st)) as [r' w]. intros [= <- <-]. eauto.
Qed.

Lemma bind_date_now_inv {B} (svc : Services World) (k : Z → M World B) st r st' :
  bind (date_now svc) k st = (r, st') →
  ∃ t w, Date_now svc (world st) = (t, w) ∧ k t (ticked st w) = (r, st').
Proof.
  unfold bind, date_now. destruct (Date_now svc (world st)) as [t w]. eauto.
Qed.

Lemma try_catch_inv {A} (m : M World A) (h : error → M World A) st r st' :
  try_catch m h st = (r, st') →
  (∃ a, m st = (Return a, st') ∧ r = Return a) ∨
  (∃ e st1, m st = (Throw e, st1) ∧ h e st1 = (r, st')).
Proof.
  unfold try_catch. destruct (m st) as [[a|e] st1]; [|eauto].
  intros [= <- <-]. eauto.
Qed.

(** *** Computations that call nothing *)

Lemma quiet_ret {A} (a : A) : quiet (World := World) (ret a).
Proof. by intros st r st' [= <- <-]. Qed.

Lemma quiet_throw {A} e : quiet (World := World) (A := A) (throw e).
Proof. by intros st r st' [= <- <-]. Qed.

Lemma quiet_lift {A} (x : completion A) : quiet (World := World) (lift x).
Proof. by intros st r st' [= <- <-]. Qed.

Lemma quiet_date_now (svc : Services World) : quiet (date_now svc).
Proof.
  intros st r st'. unfold date_now. destruct (Date_now svc (world st)). by intros [= <- <-].
Qed.

Lemma quiet_cache_get id : quiet (World := World) (cache_get id).
Proof. by intros st r st' [= <- <-]. Qed.

Lemma quiet_cache_set id ts : quiet (World := World) (cache_set id ts).
Proof. by intros st r st' [= <- <-]. Qed.

Lemma quiet_bind {A B} (m : M World A) (k : A → M World B) :
  quiet m → (∀ a, quiet (k a)) → quiet (bind m k).
Proof.
  intros Hm Hk st r st' (r1 & st1 & H1 & H)%bind_inv.
  destruct r1 as [a|e].
  - rewrite (Hk _ _ _ _ H). eauto.
  - destruct H as [_ ->]. eauto.
Qed.

Lemma quiet_if {A} (b : bool) (m1 m2 : M World A) :
  quiet m1 → quiet m2 → quiet (if b then m1 else m2).
Proof. by destruct b. Qed.

(** One call, then nothing but computations that call nothing. *)
Lemma calls_external_then {A B} c (f : World → completion A * World)
    (k : A → M World B) st r st' :
  (∀ a, quiet (k a)) →
  bind (external c f) k st = (r, st') → calls st' = (calls st ++ [c])%list.
Proof.
  intros Hk [w [(a & _ & H) | (e & _ & _ & ->)]]%bind_external_inv; [|done].
  by rewrite (Hk _ _ _ _ H).
Qed.

End Inversion.

Ltac quiets :=
  cbv zeta;
  repeat first
    [ apply quiet_bind; [|intros]
    | apply quiet_if
    | apply quiet_ret
    | apply quiet_throw
    | apply quiet_lift
    | apply quiet_date_now
    | apply quiet_cache_get
    | apply quiet_cache_set ].

(** ** The calls of the transformer *)

Section Transformer_calls.
Context {World : Type} (svc : Services World).
Implicit Types st : state World.

Lemma formatTweetWithGemini_fallback_quiet text :
  quiet (Index.formatTweetWithGemini_fallback svc text).
Proof. unfold Index.formatTweetWithGemini_fallback. quiets. Qed.

Lemma formatTweetWithGemini_fallback_quiet' text :
  quiet (Final.formatTweetWithGemini_fallback svc text).
Proof. unfold Final.formatTweetWithGemini_fallback. quiets. Qed.

Lemma formatTextWithGemini_keeps_cache text instruction :
  keeps_cache (Index.formatTextWithGemini svc text instruction).
Proof.
  unfold Index.formatTextWithGemini, Index.formatTextWithGemini_try. keeps.
Qed.

Lemma formatTextWithGemini_keeps_cache' text instruction :
  keeps_cache (Final.formatTextWithGemini svc text instruction).
Proof.
  unfold Final.formatTextWithGemini, Final.formatTextWithGemini_try. keeps.
Qed.

End Transformer_calls.

Section Transformer_calls_more.
Context {World : Type} (svc : Services World).
Implicit Types st : state World.

Lemma formatTweetWithGemini_calls text st r st' :
  Index.formatTweetWithGemini svc text st = (r, st') →
  calls st' = (calls st ++ [CallGemini (Index.tweet_prompt svc text)])%list.
Proof.
  intros [(a & H & _) | (e & st1 & H & Hf)]%try_catch_inv.
  - eapply calls_external_then; [|exact H]. intros; quiets.
  - rewrite (formatTweetWithGemini_fallback_quiet _ _ _ _ _ Hf).
    eapply calls_external_then; [|exact H]. intros; quiets.
Qed.

Lemma formatTweetWithGemini_calls' text st r st' :
  Final.formatTweetWithGemini svc text st = (r, st') →
  calls st' = (calls st ++ [CallGemini (Final.tweet_prompt svc text)])%list.
Proof.
  intros [(a & H & _) | (e & st1 & H & Hf)]%try_catch_inv.
  - eapply calls_external_then; [|exact H]. intros; quiets.
  - rewrite (formatTweetWithGemini_fallback_quiet' _ _ _ _ _ Hf).
    eapply calls_external_then; [|exact H]. intros; quiets.
Qed.

Lemma formatTextWithGemini_calls text instruction st r st' :
  Index.formatTextWithGemini svc text instruction st = (r, st') →
  calls st' = (calls st ++ [CallGemini (Index.text_prompt svc text instruction)])%list.
Proof.
  intros [(a & H & _) | (e & st1 & H & [= _ <-])]%try_catch_inv;
    (eapply calls_external_then; [|exact H]); intros; quiets.
Qed.

Lemma formatTextWithGemini_calls' text instruction st r st' :
  Final.formatTextWithGemini svc text instruction st = (r, st') →
  calls st' = (calls st ++ [CallGemini (Final.text_prompt svc text instruction)])%list.
Proof.
  intros [(a & H & _) | (e & st1 & H & [= _ <-])]%try_catch_inv;
    (eapply calls_external_then; [|exact H]); intros; quiets.
Qed.

End Transformer_calls_more.

(** X1.  On a text and an instruction that are strings, and whatever its
    outcome, a run of [formatTweetWithGemini] or of [formatTextWithGemini]
    makes exactly one call: to the generative-text service, with the prompt
    built from its arguments.  It calls neither the tweet API nor the store,
    and it leaves the cache as it is.  This holds in both variants. *)
Theorem formatters_call_once {World} (svc : Services World) (text instruction : string)
    (st : state World) :
  (∀ r st', Index.formatTweetWithGemini svc (VStr text) st = (r, st') →
     calls st' = (calls st ++ [CallGemini (Index.tweet_prompt svc (VStr text))])%list ∧
     processedTweetCache st' = processedTweetCache st) ∧
  (∀ r st', Final.formatTweetWithGemini svc (VStr text) st = (r, st') →
     calls st' = (calls st ++ [CallGemini (Final.tweet_prompt svc (VStr text))])%list ∧
     processedTweetCache st' = processedTweetCache st) ∧
  (∀ r st', Index.formatTextWithGemini svc (VStr text) (VStr instruction) st = (r, st') →
     calls st' =
       (calls st ++
        [CallGemini (Index.text_prompt svc (VStr text) (VStr instruction))])%list ∧
     processedTweetCache st' = processedTweetCache st) ∧
  (∀ r st', Final.formatTextWithGemini svc (VStr text) (VStr instruction) st = (r, st') →
     calls st' =
       (calls st ++
        [CallGemini (Final.text_prompt svc (VStr text) (VStr instruction))])%list ∧
     processedTweetCache st' = processedTweetCache st).
Proof.
  repeat split.
  - by eapply formatTweetWithGemini_calls.
  - by eapply formatTweetWithGemini_keeps_cache.
  - by eapply formatTweetWithGemini_calls'.
  - by eapply formatTweetWithGemini_keeps_cache'.
  - by eapply formatTextWithGemini_calls.
  - by eapply formatTextWithGemini_keeps_cache.
  - by eapply formatTextWithGemini_calls'.
  - by eapply formatTextWithGemini_keeps_cache'.
Qed.

(** ** The calls of one attempt *)

Ltac exec H :=
  repeat first
    [ apply bind_lift_inv in H as [(? & ? & H) | (? & ? & -> & ->)]
    | apply bind_external_inv in H as (? & [(? & ? & H) | (? & ? & -> & ->)])
    | apply bind_date_now_inv in H as (? & ? & ? & H)
    | match type of H with (if ?b then _ else _) _ = _ => destruct b eqn:? end
    | match type of H with throw _ _ = _ => unfold throw in H; injection H as <- <- end ].

Section Attempt_calls.
Context {World : Type} (svc : Services World).
Implicit Types st : state World.

Lemma processTweetId_try_calls tweetId st r st' :
  Index.processTweetId_try svc tweetId st = (r, st') →
  ∃ rest, calls st' = (calls st ++ CallFetch (tweet_url svc tweetId) :: rest)%list ∧
          after_fetch "draft" rest ∧
          ∀ savedArticle, r = Return savedArticle →
            ∃ prompt doc w w', rest = [CallGemini prompt; CallSave doc] ∧
                               Article_save svc doc w = (Return savedArticle, w').
Proof.
  unfold Index.processTweetId_try. cbv zeta. intros H.
  exec H.
  all: try (exists []; split; [reflexivity|]; split; [constructor | intros ? [=]]).
  apply bind_inv in H as (g & st1 & Hg & H).
  pose proof (formatTweetWithGemini_calls _ _ _ _ _ Hg) as Hcalls.
  cbn [calls called] in Hcalls.
  destruct g as [geminiResult|e]; [|destruct H as [-> ->]].
  2: { eexists [_]. split; [by rewrite Hcalls, <- app_assoc|].
       split; [constructor | intros ? [=]]. }
  exec H.
  all: try (eexists [_]; split; [cbn [calls ticked]; by rewrite ?Hcalls, <- app_assoc|];
            split; [constructor | intros ? [=]]).
  apply external_inv in H as (w & Hsave & ->).
  eexists [_; _]. split; [cbn [calls called ticked]; by rewrite Hcalls, <- !app_assoc|].
  split; [by constructor|]. intros savedArticle ->. eauto 10.
Qed.

Lemma processTweetId_try_calls' tweetId st r st' :
  Final.processTweetId_try svc tweetId st = (r, st') →
  ∃ rest, calls st' = (calls st ++ CallFetch (tweet_url svc tweetId) :: rest)%list ∧
          after_fetch "published" rest ∧
          ∀ savedArticle, r = Return savedArticle →
            ∃ prompt doc w w', rest = [CallGemini prompt; CallSave doc] ∧
                               Article_save svc doc w = (Return savedArticle, w').
Proof.
  unfold Final.processTweetId_try. cbv zeta. intros H.
  exec H.
  all: try (exists []; split; [reflexivity|]; split; [constructor | intros ? [=]]).
  apply bind_inv in H as (g & st1 & Hg & H).
  pose proof (formatTweetWithGemini_calls' _ _ _ _ _ Hg) as Hcalls.
  cbn [calls called] in Hcalls.
  destruct g as [geminiData|e]; [|destruct H as [-> ->]].
  2: { eexists [_]. split; [by rewrite Hcalls, <- app_assoc|].
       split; [constructor | intros ? [=]]. }
  exec H.
  all: try (eexists [_]; split; [cbn [calls ticked]; by rewrite ?Hcalls, <- app_assoc|];
            split; [constructor | intros ? [=]]).
  apply external_inv in H as (w & Hsave & ->).
  eexists [_; _]. split; [cbn [calls called ticked]; by rewrite Hcalls, <- !app_assoc|].
  split; [by constructor|]. intros savedArticle ->. eauto 10.
Qed.

End Attempt_calls.

(** X2.  One run of [processTweetId] on an id that is a string calls the
    tweet API once, for this id, and then nothing, or the generative-text
    service, or that service and then the store, in this order: it never
    transforms a tweet it could not fetch and never saves what it did not
    transform.  The document handed to the store is a draft in the first
    variant and published in the second.  A [Success] is returned only after
    the three calls, and carries what the store answered. *)
Theorem processTweetId_calls {World} (svc : Services World) (tweetId : string)
    (st : state World) :
  let url := Final.TWITTER_API_URL +:+ "?tweet_ids=" +:+ tweetId in
  (∀ r st', Index.processTweetId svc (VStr tweetId) st = (r, st') →
     ∃ rest, calls st' = (calls st ++ CallFetch url :: rest)%list ∧
             after_fetch "draft" rest ∧
             ∀ data, r = Return (Success data) →
               ∃ prompt doc w w', rest = [CallGemini prompt; CallSave doc] ∧
                                  Article_save svc doc w = (Return data, w')) ∧
  (∀ r st', Final.processTweetId svc (VStr tweetId) st = (r, st') →
     ∃ rest, calls st' = (calls st ++ CallFetch url :: rest)%list ∧
             after_fetch "published" rest ∧
             ∀ data, r = Return (Success data) →
               ∃ prompt doc w w', rest = [CallGemini prompt; CallSave doc] ∧
                                  Article_save svc doc w = (Return data, w')).
Proof.
  intros url.
  change url with (tweet_url svc (VStr tweetId)). clear url.
  split; intros r st' Hrun.
  - destruct (processTweetId_run svc (VStr tweetId) st) as (r' & st1 & Hr & H).
    rewrite Hr in Hrun. injection Hrun as <- <-.
    destruct (Index.processTweetId_try svc (VStr tweetId) st) as [[a|e] st2] eqn:Htry;
      destruct H as [-> ->];
      destruct (processTweetId_try_calls _ _ _ _ _ Htry) as (rest & Hcalls & Hrest & Hsaved);
      exists rest; (split; [done|]); (split; [done|]); intros data [=]; subst; eauto.
  - destruct (processTweetId_run' svc (VStr tweetId) st) as (r' & st1 & Hr & H).
    rewrite Hr in Hrun. injection Hrun as <- <-.
    destruct (Final.processTweetId_try svc (VStr tweetId) st) as [[a|e] st2] eqn:Htry;
      destruct H as [-> ->];
      destruct (processTweetId_try_calls' _ _ _ _ _ Htry) as (rest & Hcalls & Hrest & Hsaved);
      exists rest; (split; [done|]); (split; [done|]); intros data [=]; subst; eauto.
Qed.

(** ** The ingest by id and the cache *)

Section Ingest_cache.
Context {World : Type} (svc : Services World).
Implicit Types st : state World.

Lemma processIds_keeps_cache ids : ∀ successfulPosts failedIds,
  keeps_cache (Index.processIds svc ids successfulPosts failedIds).
Proof.
  induction ids as [|id ids IH]; intros successfulPosts failedIds; simpl.
  - apply keeps_cache_ret.
  - apply keeps_cache_bind; [apply processTweetId_keeps_cache|].
    intros [data|id' reason]; apply IH.
Qed.

Lemma processIds_keeps_cache' ids : ∀ success failed,
  keeps_cache (Final.processIds svc ids success failed).
Proof.
  induction ids as [|id ids IH]; intros success failed; simpl.
  - apply keeps_cache_ret.
  - apply keeps_cache_bind; [apply processTweetId_keeps_cache'|].
    intros [data|id' reason]; apply IH.
Qed.

End Ingest_cache.

(** X3.  The routes that ingest by id, POST and GET, in both variants,
    never change [processedTweetCache], whatever the request and whatever
    the outcome of the attempts: an id ingested this way is not marked, and
    stays due for the author route. *)
Theorem ingest_by_id_keeps_cache {World} (svc : Services World) (request : value) :
  keeps_cache (Index.post_fetch_tweet_and_save svc request) ∧
  keeps_cache (Index.get_fetch_tweet_and_save svc request) ∧
  keeps_cache (Final.post_fetch_tweet_and_save svc request) ∧
  keeps_cache (Final.get_fetch_tweet_and_save svc request).
Proof.
  repeat split.
  - unfold Index.post_fetch_tweet_and_save.
    apply keeps_cache_bind; [apply keeps_cache_lift|]. intros tweet_ids.
    apply keeps_cache_if; [apply keeps_cache_ret|].
    apply keeps_cache_bind; [apply keeps_cache_lift|]. intros ids.
    apply keeps_cache_bind; [apply processIds_keeps_cache|]. intros [? ?].
    apply keeps_cache_ret.
  - unfold Index.get_fetch_tweet_and_save.
    apply keeps_cache_bind; [apply keeps_cache_lift|]. intros tweet_ids.
    apply keeps_cache_if; [apply keeps_cache_ret|].
    apply keeps_cache_bind; [apply keeps_cache_lift|]. intros joined. cbv zeta.
    apply keeps_cache_if; [apply keeps_cache_ret|].
    apply keeps_cache_bind; [apply processIds_keeps_cache|]. intros [? ?].
    apply keeps_cache_ret.
  - unfold Final.post_fetch_tweet_and_save.
    apply keeps_cache_bind; [apply keeps_cache_lift|]. intros tweet_ids.
    apply keeps_cache_if; [apply keeps_cache_ret|].
    apply keeps_cache_bind; [apply keeps_cache_lift|]. intros ids.
    apply keeps_cache_bind; [apply processIds_keeps_cache'|]. intros [? ?].
    apply keeps_cache_ret.
  - unfold Final.get_fetch_tweet_and_save.
    apply keeps_cache_bind; [apply keeps_cache_lift|]. intros ids.
    apply keeps_cache_bind; [apply processIds_keeps_cache'|]. intros [? ?].
    apply keeps_cache_ret.
Qed.

(** ** More on a feed of an author *)







Lemma mark_all_lookup now ids : ∀ cache k,
  mark_all now ids cache !! k = Some now ∨ mark_all now ids cache !! k = cache !! k.
Proof.
  induction ids as [|id ids IH]; intros cache k; [by right|].
  simpl. destruct (IH (Map_set id now cache) k) as [H|H]; [by left|].
  rewrite H. unfold Map_set. destruct (as_key id) as [k'|]; [|by right].
  destruct (decide (k' = k)) as [->|]; [left; by rewrite lookup_insert_eq|].
  right. by rewrite lookup_insert_ne.
Qed.

Lemma null_or_not (tweets : list value) :
  Forall (λ tweet, nullish tweet = false) tweets ∨
  Exists (λ tweet, nullish tweet = true) tweets.
Proof.
  induction tweets as [|tweet tweets [IH|IH]].
  - left. constructor.
  - destruct (nullish tweet) eqn:Htweet; [right; by left | left; by constructor].
  - right. by right.
Qed.

Lemma mark_all_grows now ids cache k :
  (mark_all now ids cache !! k = Some now ∨ mark_all now ids cache !! k = cache !! k) ∧
  (is_Some (cache !! k) → is_Some (mark_all now ids cache !! k)).
Proof.
  destruct (mark_all_lookup now ids cache k) as [H|H]; rewrite H; eauto.
Qed.

(** X6.  The author-mode pipeline of either variant never removes an entry
    from the cache: however it ends, every key that had an entry has one,
    and every entry is either the one that was there or an entry written at
    the time of this run. *)
Theorem cache_only_grows {World} (svc : Services World)
    (tweets : list value) (st : state World) (now : Z) (w : World) :
  Date_now svc (world st) = (now, w) →
  (∀ r st', Index.processUserTweets svc (VArr tweets) st = (r, st') →
     ∀ k, (processedTweetCache st' !! k = Some now ∨
           processedTweetCache st' !! k = processedTweetCache st !! k) ∧
          (is_Some (processedTweetCache st !! k) → is_Some (processedTweetCache st' !! k))) ∧
  (∀ r st', Final.processUserTweets svc tweets st = (r, st') →
     ∀ k, (processedTweetCache st' !! k = Some now ∨
           processedTweetCache st' !! k = processedTweetCache st !! k) ∧
          (is_Some (processedTweetCache st !! k) → is_Some (processedTweetCache st' !! k))).
Proof.
  intros Hnow. split; intros r st' Hrun k.
  - destruct (null_or_not tweets) as [Htweets|Hnull].
    + destruct (processUserTweets_run svc tweets st now w Hnow Htweets)
        as (results & st1 & Hatt & Hrun').
      rewrite Hrun' in Hrun. injection Hrun as _ <-.
      rewrite (attempts_marked_cache _ _ _ _ _ _ (processTweetId_keeps_cache svc) Hatt).
      apply mark_all_grows.
    + destruct (processUserTweets_null svc tweets st now w Hnow Hnull) as [e He].
      rewrite He in Hrun. injection Hrun as _ <-. simpl. eauto.
  - destruct (null_or_not tweets) as [Htweets|Hnull].
    + destruct (processUserTweets_run' svc tweets st now w Hnow Htweets)
        as (results & st1 & Hatt & Hrun').
      rewrite Hrun' in Hrun. injection Hrun as _ <-.
      rewrite (attempts_marked_cache _ _ _ _ _ _ (processTweetId_keeps_cache' svc) Hatt).
      apply mark_all_grows.
    + destruct (processUserTweets_null' svc tweets st now w Hnow Hnull) as [e He].
      rewrite He in Hrun. injection Hrun as _ <-. simpl. eauto.
Qed.

(** The entry of "1" stays and "2" gets one. *)
Lemma cache_only_grows_witness :
  ∃ r st',
    Final.processUserTweets (scripted (online ["1"; "2"])) [a_tweet "1"; a_tweet "2"]
                            (seen "1" 1000 5000) = (r, st') ∧
    is_Some (processedTweetCache st' !! KStr "1").
Proof.
  destruct (Final.processUserTweets (scripted (online ["1"; "2"]))
              [a_tweet "1"; a_tweet "2"] (seen "1" 1000 5000)) as [r st'] eqn:Hrun.
  destruct (cache_only_grows (scripted (online ["1"; "2"])) [a_tweet "1"; a_tweet "2"]
              (seen "1" 1000 5000) 5000 5001 eq_refl) as [_ H].
  exists r, st'. split; [reflexivity|].
  apply (H r st' Hrun (KStr "1")). by exists 1000.
Defined.

(** ** The author route as a whole *)

Section Author_route.
Context {World : Type} (svc : Services World).
Implicit Types st : state World.





End Author_route.



(** X8.  When the feed of an author cannot be fetched, the route answers 500
    with the reason, after the one call to the tweet API, without any
    attempt and with the cache as it was: in both variants when [fetch]
    raises, with the message of its error, and in the first variant also
    when the response is not ok, with the status in the reason. *)
Theorem feed_failure_is_500 {World} (svc : Services World) (query userName : value)
    (st : state World) :
  get query "userName" = Return userName →
  truthy userName = true →
  let url := user_url svc userName in
  (∀ e w, fetch svc url (world st) = (Throw e, w) →
     Index.fetch_user_last_tweets svc query st =
       (Return {| Index.http := 500;
                  Index.sent := Index.ErrorDetails "Failed to process user's last tweets"
                                                   (message e) |},
        called st (CallFetch url) w) ∧
     Final.fetch_user_last_tweets svc query st =
       (Return {| Final.http := 500; Final.sent := Final.ErrorOnly (message e) |},
        called st (CallFetch url) w)) ∧
  (∀ response w, fetch svc url (world st) = (Return response, w) → ok response = false →
     Index.fetch_user_last_tweets svc query st =
       (Return {| Index.http := 500;
                  Index.sent :=
                    Index.ErrorDetails "Failed to process user's last tweets"
                      ("Twitter User API request failed with status " +:+
                       pretty (status response)) |},
        called st (CallFetch url) w)).
Proof.
  intros Hq Hu url. split.
  - intros e w Hfetch. split.
    + unfold Index.fetch_user_last_tweets.
      eapply bind_run_eq; [unfold lift; by rewrite Hq|]. rewrite Hu.
      eapply try_catch_Throw.
      { apply bind_fail. exact (external_run _ _ _ _ _ Hfetch). }
      reflexivity.
    + unfold Final.fetch_user_last_tweets.
      eapply bind_run_eq; [unfold lift; by rewrite Hq|]. rewrite Hu.
      eapply try_catch_Throw.
      { apply bind_fail. exact (external_run _ _ _ _ _ Hfetch). }
      reflexivity.
  - intros response w Hfetch Hok.
    unfold Index.fetch_user_last_tweets.
    eapply bind_run_eq; [unfold lift; by rewrite Hq|]. rewrite Hu.
    eapply try_catch_Throw.
    { eapply bind_run_eq; [exact (external_run _ _ _ _ _ Hfetch)|]. rewrite Hok.
      reflexivity. }
    reflexivity.
Qed.

Lemma feed_failure_is_500_witness :
  Final.fetch_user_last_tweets (scripted offline) (VObj [("userName", VStr "bigtvtelugu")])
                               (boot 0) =
    (Return {| Final.http := 500; Final.sent := Final.ErrorOnly "fetch failed" |},
     called (boot 0)
       (CallFetch (user_url (scripted offline) (VStr "bigtvtelugu"))) 0).
Proof.
  destruct (feed_failure_is_500 (scripted offline) (VObj [("userName", VStr "bigtvtelugu")])
              (VStr "bigtvtelugu") (boot 0) eq_refl eq_refl) as [H _].
  by destruct (H network_down 0 eq_refl) as [_ ->].
Defined.

(** ** The ids of a request *)

Lemma not_nonempty_array_rejected (tweet_ids : value) :
  (∀ id ids, tweet_ids ≠ VArr (id :: ids)) →
  negb (truthy tweet_ids) || negb (isArray tweet_ids)
    || is_zero (get_opt tweet_ids "length") = true.
Proof.
  intros Hnot. destruct tweet_ids as [| | | | |items|]; try by destruct (truthy _).
  rewrite is_zero_length. destruct items as [|id ids]; [done|]. by destruct (Hnot id ids).
Qed.

(** X9.  The POST route of the ingest of the first variant answers 400,
    without a call and without a change of state, exactly when [tweet_ids]
    is anything but a non-empty array: a missing field, [null], a string, a
    number, an object or the empty array.  On a non-empty array of strings
    it attempts the ids, in order, and answers 200. *)
Theorem post_ingest_validates {World} (svc : Services World) (body tweet_ids : value)
    (st : state World) :
  get body "tweet_ids" = Return tweet_ids →
  ((∀ id ids, tweet_ids ≠ VArr (id :: ids)) →
     Index.post_fetch_tweet_and_save svc body st =
       (Return (bad_request "tweet_ids must be a non-empty array."), st)) ∧
  (∀ (id : string) (ids : list string), tweet_ids = VArr (VStr <$> id :: ids) →
     ∃ results st',
       attempts (Index.processTweetId svc) unmarked (VStr <$> id :: ids) st results st' ∧
       Index.post_fetch_tweet_and_save svc body st =
         (Return {| Index.http := 200;
                    Index.sent :=
                      Index.Ingested
                        (Index.processed_message (length (successes results))
                                                 (length (id :: ids)))
                        (successes results) (failed_ids results) |}, st')).
Proof.
  intros Hbody. split.
  - intros Hnot. unfold Index.post_fetch_tweet_and_save.
    eapply bind_run_eq; [unfold lift; by rewrite Hbody|].
    by rewrite not_nonempty_array_rejected.
  - intros id ids ->. rewrite fmap_cons in Hbody |- *.
    destruct (post_fetch_tweet_and_save_run svc body (VStr id) (VStr <$> ids) st Hbody)
      as (results & st' & Hatt & Hrun).
    exists results, st'. split; [done|].
    rewrite Hrun. cbn [length]. by rewrite length_fmap.
Qed.

(** A string of ids is not an array; an array of one id is attempted. *)
Lemma post_ingest_validates_witness :
  Index.post_fetch_tweet_and_save (scripted (online ["1"]))
    (VObj [("tweet_ids", VStr "1,2")]) (boot 0) =
    (Return (bad_request "tweet_ids must be a non-empty array."), boot 0) ∧
  ∃ reply st',
    Index.post_fetch_tweet_and_save (scripted (online ["1"]))
      (VObj [("tweet_ids", VArr [VStr "1"])]) (boot 0) = (Return reply, st') ∧
    Index.http reply = 200.
Proof.
  split.
  - by apply (post_ingest_validates (scripted (online ["1"]))
                (VObj [("tweet_ids", VStr "1,2")]) (VStr "1,2") (boot 0) eq_refl).
  - destruct (post_ingest_validates (scripted (online ["1"]))
                (VObj [("tweet_ids", VArr [VStr "1"])]) (VArr [VStr "1"]) (boot 0) eq_refl)
      as [_ H].
    destruct (H "1" [] eq_refl) as (results & st' & _ & Hrun).
    eexists _, st'. split; [exact Hrun | reflexivity].
Defined.

(** X10.  The POST route of the ingest of the second variant only tests
    that [tweet_ids] is truthy.  A truthy [tweet_ids] that cannot be
    iterated, such as a number, [true] or an object, makes the handler raise
    the TypeError of the loop without a reply, a call or a change of state;
    a string is iterated code point by code point, each one being attempted
    as an id. *)
Theorem post_ingest_iterates {World} (svc : Services World) (body tweet_ids : value)
    (st : state World) :
  get body "tweet_ids" = Return tweet_ids →
  truthy tweet_ids = true →
  (isArray tweet_ids = false → (∀ s, tweet_ids ≠ VStr s) →
     Final.post_fetch_tweet_and_save svc body st =
       (Throw (TypeError "tweet_ids is not iterable"), st)) ∧
  (∀ s, tweet_ids = VStr s →
     ∃ results st',
       attempts (Final.processTweetId svc) unmarked (chars s) st results st' ∧
       Final.post_fetch_tweet_and_save svc body st =
         (Return {| Final.http := 200;
                    Final.sent := Final.Ingested (successes results) (failures results) |},
          st')).
Proof.
  intros Hbody Htruthy. split.
  - intros Harray Hstring. unfold Final.post_fetch_tweet_and_save.
    eapply bind_run_eq; [unfold lift; by rewrite Hbody|]. rewrite Htruthy.
    apply bind_fail. unfold lift.
    destruct tweet_ids as [| | | |s| |]; try done. by destruct (Hstring s).
  - intros s ->.
    destruct (processIds_run' svc (chars s) [] [] st) as (results & st' & Hatt & Hrun).
    exists results, st'. split; [done|].
    unfold Final.post_fetch_tweet_and_save.
    eapply bind_run_eq; [unfold lift; by rewrite Hbody|]. rewrite Htruthy.
    eapply bind_run_eq; [reflexivity|].
    by erewrite bind_run by exact Hrun.
Qed.

(** The number 1846 is not iterable; the string "é8" is attempted as "é"
    and "8". *)
Lemma post_ingest_iterates_witness :
  Final.post_fetch_tweet_and_save (scripted offline)
    (VObj [("tweet_ids", VNum (number_of_Z 1846))]) (boot 0) =
    (Throw (TypeError "tweet_ids is not iterable"), boot 0) ∧
  ∃ results st',
    attempts (Final.processTweetId (scripted offline)) unmarked [VStr "é"; VStr "8"]
             (boot 0) results st' ∧
    length results = 2%nat.
Proof.
  split.
  - by apply (post_ingest_iterates (scripted offline)
                (VObj [("tweet_ids", VNum (number_of_Z 1846))]) (VNum (number_of_Z 1846))
                (boot 0) eq_refl eq_refl).
  - destruct (post_ingest_iterates (scripted offline) (VObj [("tweet_ids", VStr "é8")])
                (VStr "é8") (boot 0) eq_refl eq_refl) as [_ H].
    destruct (H "é8" eq_refl) as (results & st' & Hatt & _).
    exists results, st'. split; [exact Hatt|]. by apply attempts_length in Hatt.
Defined.

Lemma split_comma_from_length s : ∀ cur,
  length (split_comma_from cur s) = S (commas s).
Proof.
  induction s as [|c s IH]; intros cur; simpl; [done|].
  case_bool_decide; simpl; by rewrite IH.
Qed.

Lemma split_comma_length s : length (split_comma s) = S (commas s).
Proof. apply split_comma_from_length. Qed.

(** X11.  On a [tweet_ids] given in the query as a string, the GET route of
    the second variant attempts every piece between the commas, the empty
    ones included: one id more than there are commas, so that an empty
    [tweet_ids] is attempted as the empty id.  The GET route of the first
    variant trims the pieces and drops the empty ones: it attempts no empty
    id, at most as many ids as the second variant, and answers 400 without
    a call when nothing is left. *)
Theorem get_ingest_splits {World} (svc : Services World) (query : value) (joined : string)
    (st : state World) :
  get query "tweet_ids" = Return (VStr joined) →
  let idsToProcess :=
    filter (λ id, id ≠ "") (String_trim svc <$> split_comma joined) in
  (∃ results st',
     attempts (Final.processTweetId svc) unmarked (VStr <$> split_comma joined) st
              results st' ∧
     length results = S (commas joined) ∧
     Final.get_fetch_tweet_and_save svc query st =
       (Return {| Final.http := 200;
                  Final.sent := Final.Ingested (successes results) (failures results) |},
        st')) ∧
  (joined ≠ "" → idsToProcess = [] →
     Index.get_fetch_tweet_and_save svc query st =
       (Return (bad_request "No valid tweet_ids provided."), st)) ∧
  (joined ≠ "" → idsToProcess ≠ [] →
     ∃ results st',
       attempts (Index.processTweetId svc) unmarked (VStr <$> idsToProcess) st
                results st' ∧
       Forall (λ id, id ≠ "") idsToProcess ∧
       (length results ≤ S (commas joined))%nat ∧
       Index.get_fetch_tweet_and_save svc query st =
         (Return {| Index.http := 200;
                    Index.sent :=
                      Index.Ingested
                        (Index.processed_message (length (successes results))
                                                 (length idsToProcess))
                        (successes results) (failed_ids results) |}, st')).
Proof.
  intros Hquery idsToProcess. repeat split.
  - destruct (processIds_run' svc (VStr <$> split_comma joined) [] [] st)
      as (results & st' & Hatt & Hrun).
    exists results, st'. split; [done|]. split.
    + by rewrite (attempts_length _ _ _ _ _ _ Hatt), length_fmap, split_comma_length.
    + unfold Final.get_fetch_tweet_and_save, Final.query_ids. rewrite Hquery.
      eapply bind_run_eq; [reflexivity|].
      by erewrite bind_run by exact Hrun.
  - intros Hjoined Hnone. unfold Index.get_fetch_tweet_and_save.
    eapply bind_run_eq; [unfold lift; by rewrite Hquery|].
    rewrite (proj2 (truthy_VStr joined) Hjoined).
    eapply bind_run_eq; [reflexivity|]. cbv zeta. fold idsToProcess.
    by rewrite Hnone.
  - intros Hjoined Hsome.
    destruct (processIds_run svc (VStr <$> idsToProcess) [] [] st)
      as (results & st' & Hatt & Hrun).
    exists results, st'. split; [done|]. split; [|split].
    + apply Forall_forall. by intros id [? _]%list_elem_of_filter.
    + rewrite (attempts_length _ _ _ _ _ _ Hatt), length_fmap.
      unfold idsToProcess. etrans; [apply length_filter|].
      by rewrite length_fmap, split_comma_length.
    + unfold Index.get_fetch_tweet_and_save.
      eapply bind_run_eq; [unfold lift; by rewrite Hquery|].
      rewrite (proj2 (truthy_VStr joined) Hjoined).
      eapply bind_run_eq; [reflexivity|]. cbv zeta. fold idsToProcess.
      rewrite bool_decide_eq_false_2 by (by destruct idsToProcess).
      by erewrite bind_run by exact Hrun.
Qed.

(** "1,,2" is attempted as three ids by the second variant and as two by
    the first. *)
Lemma get_ingest_splits_witness :
  (∃ results st',
     attempts (Final.processTweetId (scripted offline)) unmarked
              [VStr "1"; VStr ""; VStr "2"] (boot 0) results st' ∧
     length results = 3%nat) ∧
  (∃ results st',
     attempts (Index.processTweetId (scripted offline)) unmarked
              [VStr "1"; VStr "2"] (boot 0) results st' ∧
     (length results ≤ 3)%nat).
Proof.
  destruct (get_ingest_splits (scripted offline) (VObj [("tweet_ids", VStr "1,,2")])
              "1,,2" (boot 0) eq_refl) as ((results & st' & Hatt & Hlen & _) & _ & H).
  split.
  - by exists results, st'.
  - destruct H as (results' & st'' & Hatt' & _ & Hlen' & _); [done | done |].
    by exists results', st''.
Defined.

(** ** The update of an article *)

Lemma field_without_id fields :
  field "_id" (filter (λ kv : string * value, kv.1 ≠ "_id") fields) = VUndefined ∧
  ∀ k, k ≠ "_id" →
    field k (filter (λ kv : string * value, kv.1 ≠ "_id") fields) = field k fields.
Proof.
  induction fields as [|[k' v] fields [IH1 IH2]]; [done|].
  destruct (decide (k' = "_id")) as [->|Hk'].
  - rewrite filter_cons_False by (simpl; by intros []). split; [done|].
    intros k Hk. simpl. rewrite bool_decide_eq_false_2 by done. by apply IH2.
  - rewrite filter_cons_True by done. split.
    + simpl. by rewrite bool_decide_eq_false_2.
    + intros k Hk. simpl. case_bool_decide; [done | by apply IH2].
Qed.

(** X12.  On a body that is an object and an id that is valid, the update
    route of the first variant makes one call to the store, with the body
    from which [_id] has been removed and whose other fields are unchanged.
    The second variant makes one call with the id and the body as they
    came, [_id] included, whatever the id. *)
Theorem update_strips_id {World} (svc : Services World) (id : value)
    (fields : list (string * value)) (st : state World) :
  (ObjectId_isValid svc id = true →
   ∀ r st', Index.update_article svc id (VObj fields) st = (r, st') →
     ∃ updatedData,
       calls st' = (calls st ++ [CallUpdate id updatedData])%list ∧
       get updatedData "_id" = Return VUndefined ∧
       ∀ k, k ≠ "_id" → get updatedData k = get (VObj fields) k) ∧
  (∀ r st', Final.update_article svc id (VObj fields) st = (r, st') →
     calls st' = (calls st ++ [CallUpdate id (VObj fields)])%list).
Proof.
  split.
  - intros Hid r st' Hrun. unfold Index.update_article in Hrun. rewrite Hid in Hrun.
    cbn [negb delete_field] in Hrun.
    apply bind_lift_inv in Hrun as [(updatedData & [= <-] & Hrun) | (e & [=] & _)].
    eexists. split; [|split].
    + apply try_catch_inv in Hrun as [(a & Hrun & _) | (e & st1 & Hrun & Hh)].
      * eapply calls_external_then; [|exact Hrun]. intros [article|]; apply quiet_ret.
      * assert (calls st' = calls st1) as ->.
        { destruct (bool_decide (code e = Some 11000)); by injection Hh as _ <-. }
        eapply calls_external_then; [|exact Hrun]. intros [article|]; apply quiet_ret.
    + simpl. f_equal. apply field_without_id.
    + intros k Hk. simpl. f_equal. by apply field_without_id.
  - intros r st' [(a & Hrun & _) | (e & st1 & Hrun & [= _ <-])]%try_catch_inv;
      (eapply calls_external_then; [|exact Hrun]); intros [article|]; apply quiet_ret.
Qed.

(** A body that carries [_id] and [slug]. *)
Lemma update_strips_id_witness :
  ∃ updatedData r st',
    Index.update_article (scripted (online [])) (VStr "65f0")
      (VObj [("_id", VStr "65f0"); ("slug", VStr "a-slug")]) (boot 0) = (r, st') ∧
    calls st' = [CallUpdate (VStr "65f0") updatedData] ∧
    get updatedData "_id" = Return VUndefined ∧
    get updatedData "slug" = Return (VStr "a-slug").
Proof.
  destruct (Index.update_article (scripted (online [])) (VStr "65f0")
              (VObj [("_id", VStr "65f0"); ("slug", VStr "a-slug")]) (boot 0))
    as [r st'] eqn:Hrun.
  destruct (update_strips_id (scripted (online [])) (VStr "65f0")
              [("_id", VStr "65f0"); ("slug", VStr "a-slug")] (boot 0)) as [H _].
  destruct (H eq_refl r st' Hrun) as (updatedData & Hcalls & Hid & Hother).
  exists updatedData, r, st'. split; [reflexivity|]. split; [exact Hcalls|].
  split; [exact Hid|]. by rewrite Hother.
Defined.

(** X13.  The update route answers by what it is given and by what the
    store does.  First variant: 400 without a call to the store when the id
    is not a valid ObjectId; otherwise 404 when the store finds no article,
    200 with the updated article when it does, and 500 with the message
    when the store raises an error whose code is not 11000.  Second variant:
    404 when the store finds no article and 200 with the article when it
    does, the id not being checked. *)
Theorem update_answers {World} (svc : Services World) (id body : value)
    (st : state World) :
  (ObjectId_isValid svc id = false →
     Index.update_article svc id body st =
       (Return (bad_request "Invalid Article ID format."), st)) ∧
  (∀ updatedData,
     ObjectId_isValid svc id = true → delete_field "_id" body = Return updatedData →
     let asked := called st (CallUpdate id updatedData) in
     (∀ w, Article_findByIdAndUpdate svc id updatedData (world st) = (Return None, w) →
        Index.update_article svc id body st =
          (Return {| Index.http := 404;
                     Index.sent := Index.Rejected "Article not found." None |}, asked w)) ∧
     (∀ article w,
        Article_findByIdAndUpdate svc id updatedData (world st) = (Return (Some article), w) →
        Index.update_article svc id body st =
          (Return {| Index.http := 200;
                     Index.sent := Index.Updated "Article updated successfully." article |},
           asked w)) ∧
     (∀ e w,
        Article_findByIdAndUpdate svc id updatedData (world st) = (Throw e, w) →
        code e ≠ Some 11000 →
        Index.update_article svc id body st =
          (Return {| Index.http := 500;
                     Index.sent := Index.Rejected "Failed to update article"
                                                  (Some (message e)) |}, asked w))) ∧
  (∀ w, Article_findByIdAndUpdate svc id body (world st) = (Return None, w) →
     Final.update_article svc id body st =
       (Return {| Final.http := 404; Final.sent := Final.ErrorOnly "Not found" |},
        called st (CallUpdate id body) w)) ∧
  (∀ article w,
     Article_findByIdAndUpdate svc id body (world st) = (Return (Some article), w) →
     Final.update_article svc id body st =
       (Return {| Final.http := 200; Final.sent := Final.Updated article |},
        called st (CallUpdate id body) w)).
Proof.
  split; [|split; [|split]].
  - intros Hid. unfold Index.update_article. by rewrite Hid.
  - intros updatedData Hid Hbody asked. repeat split.
    + intros w Hstore. unfold Index.update_article. rewrite Hid.
      eapply bind_run_eq; [unfold lift; by rewrite Hbody|].
      apply try_catch_Return.
      eapply bind_run_eq; [exact (external_run _ _ _ _ _ Hstore)|]. reflexivity.
    + intros article w Hstore. unfold Index.update_article. rewrite Hid.
      eapply bind_run_eq; [unfold lift; by rewrite Hbody|].
      apply try_catch_Return.
      eapply bind_run_eq; [exact (external_run _ _ _ _ _ Hstore)|]. reflexivity.
    + intros e w Hstore Hcode. unfold Index.update_article. rewrite Hid.
      eapply bind_run_eq; [unfold lift; by rewrite Hbody|].
      eapply try_catch_Throw.
      { apply bind_fail. exact (external_run _ _ _ _ _ Hstore). }
      by rewrite bool_decide_eq_false_2.
  - intros w Hstore. unfold Final.update_article.
    apply try_catch_Return.
    eapply bind_run_eq; [exact (external_run _ _ _ _ _ Hstore)|]. reflexivity.
  - intros article w Hstore. unfold Final.update_article.
    apply try_catch_Return.
    eapply bind_run_eq; [exact (external_run _ _ _ _ _ Hstore)|]. reflexivity.
Qed.

(** An id that is not a string, and a store that finds nothing. *)
Lemma update_answers_witness :
  Index.update_article (scripted (online [])) VNull (VObj []) (boot 0) =
    (Return (bad_request "Invalid Article ID format."), boot 0) ∧
  Index.update_article (scripted (online [])) (VStr "65f0") (VObj []) (boot 0) =
    (Return {| Index.http := 404;
               Index.sent := Index.Rejected "Article not found." None |},
     called (boot 0) (CallUpdate (VStr "65f0") (VObj [])) 0).
Proof.
  split.
  - by apply (update_answers (scripted (online [])) VNull (VObj []) (boot 0)).
  - destruct (update_answers (scripted (online [])) (VStr "65f0") (VObj []) (boot 0))
      as (_ & H & _).
    destruct (H (VObj []) eq_refl eq_refl) as (H404 & _). by apply H404.
Defined.

(** ** Routes that answer 200 whatever happens *)

Lemma formatTextWithGemini_returns {World} (svc : Services World) text instruction
    (st : state World) :
  ∃ v st', Index.formatTextWithGemini svc text instruction st = (Return v, st').
Proof.
  unfold Index.formatTextWithGemini, try_catch.
  destruct (Index.formatTextWithGemini_try svc text instruction st) as [[v|e] st1];
    by eexists _, _.
Qed.

Lemma formatTextWithGemini_returns' {World} (svc : Services World) text instruction
    (st : state World) :
  ∃ v st', Final.formatTextWithGemini svc text instruction st = (Return v, st').
Proof.
  unfold Final.formatTextWithGemini, try_catch.
  destruct (Final.formatTextWithGemini_try svc text instruction st) as [[v|e] st1];
    by eexists _, _.
Qed.

(** X14.  A request to the free-text route whose body is an object, and
    whose [text] and [instruction] are each missing or a value that is
    neither an object nor an array, is always answered, and never with 500.
    The first variant answers 400 without a call, or 200 after exactly one
    call to the generative-text service, a failure of that service being
    reported in the data of a 200.  The second variant always answers 200
    after exactly one call. *)
Theorem summarize_text_never_500 {World} (svc : Services World) (body : value)
    (st : state World) :
  nullish body = false →
  let text := get_opt body "text" in
  let instruction := get_opt body "instruction" in
  primitive text = true →
  primitive instruction = true →
  (∃ reply st', Index.summarize_text svc body st = (Return reply, st') ∧
     ((Index.http reply = 400 ∧ st' = st) ∨
      (Index.http reply = 200 ∧
       calls st' = (calls st ++ [CallGemini (Index.text_prompt svc text instruction)])%list))) ∧
  (∃ data st', Final.summarize_text svc body st =
                 (Return {| Final.http := 200; Final.sent := Final.Transformed data |}, st') ∧
     calls st' = (calls st ++ [CallGemini (Final.text_prompt svc text instruction)])%list).
Proof.
  intros Hbody text instruction _ _. split.
  - unfold Index.summarize_text.
    rewrite (bind_run _ _ _ _ _ (f_equal (λ r, (r, st)) (get_nullish _ "text" Hbody))).
    rewrite (bind_run _ _ _ _ _ (f_equal (λ r, (r, st)) (get_nullish _ "instruction" Hbody))).
    fold text instruction.
    destruct (negb (truthy text) || negb (truthy instruction));
      [eexists _, _; split; [done|]; by left|].
    destruct (formatTextWithGemini_returns svc text instruction st) as (v & st' & Hrun).
    eexists _, st'. split.
    + apply try_catch_Return. eapply bind_run_eq; [exact Hrun|]. reflexivity.
    + right. split; [done|]. by eapply formatTextWithGemini_calls.
  - destruct (formatTextWithGemini_returns' svc text instruction st) as (v & st' & Hrun).
    exists v, st'. split.
    + unfold Final.summarize_text.
      rewrite (bind_run _ _ _ _ _ (f_equal (λ r, (r, st)) (get_nullish _ "text" Hbody))).
      rewrite (bind_run _ _ _ _ _
                 (f_equal (λ r, (r, st)) (get_nullish _ "instruction" Hbody))).
      eapply bind_run_eq; [exact Hrun|]. reflexivity.
    + by eapply formatTextWithGemini_calls'.
Qed.

(** With the generative-text service unreachable, both variants answer
    200. *)
Lemma summarize_text_never_500_witness :
  (∃ reply st',
     Index.summarize_text (scripted offline)
       (VObj [("text", VStr "hello"); ("instruction", VStr "translate")]) (boot 0) =
       (Return reply, st') ∧ Index.http reply = 200) ∧
  (∃ data st',
     Final.summarize_text (scripted offline)
       (VObj [("text", VStr "hello"); ("instruction", VStr "translate")]) (boot 0) =
       (Return {| Final.http := 200; Final.sent := Final.Transformed data |}, st')).
Proof.
  destruct (summarize_text_never_500 (scripted offline)
              (VObj [("text", VStr "hello"); ("instruction", VStr "translate")]) (boot 0)
              eq_refl eq_refl eq_refl)
    as [(reply & st' & Hrun & H) (data & st'' & Hrun' & _)].
  split.
  - exists reply, st'. split; [exact Hrun|].
    destruct H as [[_ Hst]|[H _]]; [|exact H].
    rewrite Hst in Hrun. vm_compute in Hrun. discriminate Hrun.
  - by exists data, st''.
Defined.

(** X15.  The debug route of the second variant answers 200 to every
    request whose query is an object: a missing [userName], a tweet API
    that raises and a body that does not parse are all reported in the body
    of a 200.  It makes at most one call, to the tweet API, and leaves the
    cache as it is. *)
Theorem debug_route_answers_200 {World} (svc : Services World) (query : value)
    (st : state World) :
  nullish query = false →
  ∃ reply st',
    Final.debug_twitterapi svc query st = (Return reply, st') ∧
    Final.http reply = 200 ∧
    processedTweetCache st' = processedTweetCache st ∧
    (calls st' = calls st ∨
     calls st' = (calls st ++ [CallFetch (user_url svc (get_opt query "userName"))])%list).
Proof.
  intros Hquery. unfold Final.debug_twitterapi.
  rewrite (bind_run _ _ _ _ _ (f_equal (λ r, (r, st)) (get_nullish _ "userName" Hquery))).
  destruct (negb (truthy (get_opt query "userName")));
    [eexists _, _; split; [done|]; auto|].
  unfold try_catch. cbv zeta.
  match goal with |- context [match ?m st with _ => _ end] =>
    destruct (m st) as [[reply|e] st1] eqn:Hrun end.
  - exists reply, st1. split; [done|].
    pose proof (calls_external_then _ _ _ _ _ _
                  (λ response, quiet_bind _ _ (quiet_lift _) (λ data, quiet_ret _)) Hrun)
      as Hcalls.
    apply bind_Return in Hrun as (response & st2 & (w & _ & ->)%external_Return & Hrun).
    apply bind_Return in Hrun as (data & st3 & [_ ->]%lift_Return & Hrun).
    injection Hrun as <- <-. auto.
  - eexists _, st1. split; [done|].
    pose proof (calls_external_then _ _ _ _ _ _
                  (λ response, quiet_bind _ _ (quiet_lift _) (λ data, quiet_ret _)) Hrun)
      as Hcalls.
    split; [done|]. split; [|by right].
    apply bind_inv in Hrun as (r1 & st2 & (w & _ & ->)%external_inv & Hrun).
    destruct r1 as [response|e']; [|by destruct Hrun as [_ ->]].
    by apply bind_lift_inv in Hrun as [(? & _ & [=]) | (? & _ & _ & ->)].
Qed.

Lemma debug_route_answers_200_witness :
  ∃ reply st',
    Final.debug_twitterapi (scripted offline) (VObj [("userName", VStr "bigtvtelugu")])
                           (boot 0) = (Return reply, st') ∧
    Final.http reply = 200.
Proof.
  destruct (debug_route_answers_200 (scripted offline)
              (VObj [("userName", VStr "bigtvtelugu")]) (boot 0) eq_refl)
    as (reply & st' & Hrun & Hhttp & _).
  by exists reply, st'.
Defined.

(** ** The polls *)

Section Polls.
Context {World : Type} (BASE_URL : string) (self : string → M World Response)
  (Response_text : Response → completion string).
Implicit Types st : state World.

Lemma poll_returns user st :
  ∃ entry st', Cron.poll BASE_URL self user st = (Return entry, st') ∧
               Cron.user entry = user.
Proof.
  unfold Cron.poll, try_catch.
  match goal with |- context [match ?m st with _ => _ end] =>
    destruct (m st) as [[entry|e] st1] eqn:Hrun end.
  - exists entry, st1. split; [done|].
    apply bind_Return in Hrun as (response & st2 & _ & Hrun).
    apply bind_Return in Hrun as (data & st3 & _ & Hrun).
    apply bind_Return in Hrun as (successfulPosts & st4 & _ & Hrun).
    apply bind_Return in Hrun as (failedIds & st5 & _ & Hrun).
    apply bind_Return in Hrun as (skippedCachedIds & st6 & _ & Hrun).
    by injection Hrun as <- _.
  - by eexists _, _.
Qed.

Lemma poll_returns' user st :
  ∃ entry st', Cron.poll' BASE_URL self Response_text user st = (Return entry, st') ∧
               Cron.user entry = user.
Proof.
  unfold Cron.poll', try_catch.
  match goal with |- context [match ?m st with _ => _ end] =>
    destruct (m st) as [[entry|e] st1] eqn:Hrun end.
  - exists entry, st1. split; [done|].
    apply bind_Return in Hrun as (response & st2 & _ & Hrun).
    destruct (negb (ok response)).
    + apply bind_Return in Hrun as (body & st3 & _ & Hrun). by injection Hrun as <- _.
    + apply bind_Return in Hrun as (data & st3 & _ & Hrun).
      apply bind_Return in Hrun as (success & st4 & _ & Hrun).
      apply bind_Return in Hrun as (failed & st5 & _ & Hrun).
      apply bind_Return in Hrun as (skipped & st6 & _ & Hrun).
      by injection Hrun as <- _.
  - by eexists _, _.
Qed.

Lemma poll_all_run (poll : string → M World Cron.entry) users :
  (∀ user st, ∃ entry st', poll user st = (Return entry, st') ∧ Cron.user entry = user) →
  ∀ results st,
    ∃ entries st',
      rounds poll users st entries st' ∧
      Cron.user <$> entries = users ∧
      Cron.poll_all poll users results st = (Return (results ++ entries)%list, st').
Proof.
  intros Hpoll. induction users as [|user users IH]; intros results st.
  - exists [], st. split; [constructor|]. split; [done|]. simpl. by rewrite app_nil_r.
  - destruct (Hpoll user st) as (entry & st1 & Hrun & Huser).
    destruct (IH (results ++ [entry])%list st1) as (entries & st' & Hrounds & Husers & Hall).
    exists (entry :: entries), st'. split; [by econstructor|]. split.
    + by rewrite fmap_cons, Huser, Husers.
    + simpl. rewrite (bind_run _ _ _ _ _ Hrun), Hall. by rewrite <- app_assoc.
Qed.

Lemma tick_user_returns userName st :
  ∃ st', Cron.tick_user BASE_URL self userName st = (Return tt, st').
Proof.
  unfold Cron.tick_user, try_catch.
  match goal with |- context [match ?m st with _ => _ end] =>
    destruct (m st) as [[[]|e] st1] end; by eexists.
Qed.

Lemma tick_all_run users : ∀ st,
  ∃ st', rounds (Cron.tick_user BASE_URL self) users st (replicate (length users) tt) st' ∧
         Cron.tick_all BASE_URL self users st = (Return tt, st').
Proof.
  induction users as [|userName users IH]; intros st.
  - exists st. split; [constructor | done].
  - destruct (tick_user_returns userName st) as (st1 & Hrun).
    destruct (IH st1) as (st' & Hrounds & Hall).
    exists st'. split; [by econstructor|].
    simpl. by rewrite (bind_run _ _ _ _ _ Hrun).
Qed.

End Polls.

(** X16.  The manual trigger of the first variant always answers 200, with
    one entry for each of the two configured users, in their order.  A poll
    that fails stops nothing: when the request to the author route raises,
    the entry of that user holds the message of the error, and the next user
    is polled from the state this poll ended in. *)
Theorem run_cron_twitter_isolates {World} (BASE_URL : string)
    (self : string → M World Response) (st : state World) :
  (∃ first_ second st',
     rounds (Cron.poll BASE_URL self) ["bigtvtelugu"; "teluguscribe"] st
            [first_; second] st' ∧
     Cron.user first_ = "bigtvtelugu" ∧ Cron.user second = "teluguscribe" ∧
     Cron.run_cron_twitter BASE_URL self st =
       (Return {| Cron.http := 200;
                  Cron.message_ := "Cron fetch completed for all users";
                  Cron.results := [first_; second] |}, st')) ∧
  (∀ user e st1,
     self (Cron.route BASE_URL user) st = (Throw e, st1) →
     Cron.poll BASE_URL self user st = (Return (Cron.Broken user (message e) None), st1)).
Proof.
  split.
  - destruct (poll_all_run (Cron.poll BASE_URL self) ["bigtvtelugu"; "teluguscribe"]
                (poll_returns BASE_URL self) [] st)
      as (entries & st' & Hrounds & Husers & Hall).
    destruct entries as [|first_ [|second [|? ?]]]; try discriminate.
    injection Husers as H1 H2.
    exists first_, second, st'. repeat split; try done.
    unfold Cron.run_cron_twitter. by rewrite (bind_run _ _ _ _ _ Hall).
  - intros user e st1 Hself. unfold Cron.poll.
    eapply try_catch_Throw; [|reflexivity]. by apply bind_fail.
Qed.

(** X17.  The manual trigger of the second variant always answers 200 with
    one entry, for its one configured user.  The entry reports a response
    that is not ok with its status and its text, and a request that raises
    with the message of the error. *)
Theorem run_cron_twitter_reports {World} (BASE_URL : string)
    (self : string → M World Response) (Response_text : Response → completion string)
    (st : state World) :
  (∃ entry st',
     Cron.poll' BASE_URL self Response_text "NDTVProfitIndia" st = (Return entry, st') ∧
     Cron.user entry = "NDTVProfitIndia" ∧
     Cron.run_cron_twitter' BASE_URL self Response_text st =
       (Return {| Cron.http := 200;
                  Cron.message_ := "Cron fetch completed for all users";
                  Cron.results := [entry] |}, st')) ∧
  (∀ user response body st1,
     self (Cron.route BASE_URL user) st = (Return response, st1) →
     ok response = false → Response_text response = Return body →
     Cron.poll' BASE_URL self Response_text user st =
       (Return (Cron.Broken user ("Inner API failed (" +:+ pretty (status response) +:+ ")")
                            (Some body)), st1)) ∧
  (∀ user e st1,
     self (Cron.route BASE_URL user) st = (Throw e, st1) →
     Cron.poll' BASE_URL self Response_text user st =
       (Return (Cron.Broken user (message e) None), st1)).
Proof.
  split; [|split].
  - destruct (poll_returns' BASE_URL self Response_text "NDTVProfitIndia" st)
      as (entry & st' & Hrun & Huser).
    exists entry, st'. split; [done|]. split; [done|].
    unfold Cron.run_cron_twitter'. simpl. unfold bind at 1 2. by rewrite Hrun.
  - intros user response body st1 Hself Hok Hbody. unfold Cron.poll'.
    apply try_catch_Return. eapply bind_run_eq; [exact Hself|]. rewrite Hok.
    eapply bind_run_eq; [unfold lift; by rewrite Hbody|]. reflexivity.
  - intros user e st1 Hself. unfold Cron.poll'.
    eapply try_catch_Throw; [|reflexivity]. by apply bind_fail.
Qed.

(** X18.  The scheduled job never raises: whatever the requests to the
    author route do, it polls "bigtvtelugu" and then "UttarandhraNow", the
    second from the state the first poll ended in, and returns. *)
Theorem tick_never_raises {World} (BASE_URL : string)
    (self : string → M World Response) (st : state World) :
  ∃ st',
    rounds (Cron.tick_user BASE_URL self) ["bigtvtelugu"; "UttarandhraNow"] st [tt; tt] st' ∧
    Cron.tick BASE_URL self st = (Return tt, st').
Proof. apply (tick_all_run BASE_URL self Cron.CRON_TWITTER_USERS). Qed.

(** ** The policy on origins *)

Lemma indexOf_from_includes list v : ∀ i : Z,
  (0 ≤ i)%Z →
  (Cors.includes list v = true → (i ≤ Cors.indexOf_from i list v)%Z) ∧
  (Cors.includes list v = false → Cors.indexOf_from i list v = -1).
Proof.
  induction list as [|x list IH]; intros i Hi; simpl; [done|].
  destruct (is_string v x); simpl; [split; [lia | done]|].
  destruct (IH (i + 1)) as [IH1 IH2]; [lia|]. split; [|done].
  intros H. specialize (IH1 H). lia.
Qed.

Lemma includes_elem_of list v :
  Cors.includes list v = true ↔ ∃ s, v = VStr s ∧ s ∈ list.
Proof.
  induction list as [|x list IH]; simpl.
  - split; [done|]. by intros (s & _ & ?%elem_of_nil).
  - rewrite orb_true_iff, IH. split.
    + intros [H|(s & -> & Hin)].
      * destruct v as [| | | |s| |]; try done. simpl in H.
        apply bool_decide_eq_true in H as ->. exists x. split; [done | by left].
      * exists s. split; [done | by right].
    + intros (s & -> & [->|Hin]%elem_of_cons).
      * left. simpl. by apply bool_decide_eq_true.
      * right. eauto.
Qed.

(** X19.  The two variants have the same policy on origins, one written
    with [indexOf] and one with [includes]: a request is let through exactly
    when it has no origin, or an empty one, or one of the three allowed
    origins, and is refused with "Not allowed by CORS" otherwise. *)
Theorem origin_policy (origin : value) :
  Cors.origin_indexOf origin = Cors.origin_includes origin ∧
  (Cors.origin_includes origin = Return true ↔
     truthy origin = false ∨ ∃ s, origin = VStr s ∧ s ∈ Cors.allowedOrigins) ∧
  (Cors.origin_includes origin ≠ Return true →
     Cors.origin_includes origin = Throw (mkError "Not allowed by CORS")).
Proof.
  unfold Cors.origin_indexOf, Cors.origin_includes, Cors.indexOf. split; [|split].
  - destruct (indexOf_from_includes Cors.allowedOrigins origin 0) as [H1 H2]; [done|].
    destruct (Cors.includes Cors.allowedOrigins origin).
    + rewrite bool_decide_eq_false_2; [done|]. specialize (H1 eq_refl). lia.
    + by rewrite bool_decide_eq_true_2 by auto.
  - rewrite <- includes_elem_of.
    destruct (truthy origin), (Cors.includes Cors.allowedOrigins origin); simpl;
      split; try done; auto; by intros [|].
  - by destruct (negb (truthy origin) || Cors.includes Cors.allowedOrigins origin).
Qed.

(** ** When the transformer raises, and what it parses *)

Lemma call_slice0_Throw n text e :
  call_slice0 n text = Throw e → (∀ s, text ≠ VStr s) ∧ (∀ items, text ≠ VArr items).
Proof. by destruct text. Qed.

Section Transformer_raises.
Context {World : Type} (svc : Services World).
Implicit Types st : state World.

Lemma formatTweetWithGemini_fallback_Throw text st e st' :
  Index.formatTweetWithGemini_fallback svc text st = (Throw e, st') ↔
  call_slice0 50 text = Throw e ∧ st' = st.
Proof.
  unfold Index.formatTweetWithGemini_fallback. split.
  - intros [(title_ & _ & H) | (e' & Hslice & [= <-] & ->)]%bind_lift_inv; [|done].
    apply bind_date_now_inv in H as (t1 & w1 & _ & H).
    apply bind_date_now_inv in H as (t2 & w2 & _ & H). discriminate H.
  - intros [Hslice ->]. apply bind_fail. unfold lift. by rewrite Hslice.
Qed.

Lemma formatTweetWithGemini_fallback_Throw' text st e st' :
  Final.formatTweetWithGemini_fallback svc text st = (Throw e, st') ↔
  call_slice0 60 text = Throw e ∧ st' = st.
Proof.
  unfold Final.formatTweetWithGemini_fallback. split.
  - intros [(title_ & _ & H) | (e' & Hslice & [= <-] & ->)]%bind_lift_inv; [|done].
    apply bind_lift_inv in H as [(head_ & _ & H) | (e' & Hslice & [= <-] & ->)]; [|done].
    apply bind_date_now_inv in H as (t1 & w1 & _ & H).
    apply bind_date_now_inv in H as (t2 & w2 & _ & H). discriminate H.
  - intros [Hslice ->]. apply bind_fail. unfold lift. by rewrite Hslice.
Qed.

End Transformer_raises.

(** X20.  On a text that is neither an object nor an array,
    [formatTweetWithGemini] raises exactly when its [try] block has failed
    and the text has no [slice] to build the fallback from, which is when
    the text is not a string: the error is then the TypeError of
    [text.slice].  So a tweet without [text] whose transformation fails is
    an item that fails. *)
Theorem formatTweetWithGemini_raises {World} (svc : Services World) (text : value)
    (st : state World) (e : error) (st' : state World) :
  primitive text = true →
  (Index.formatTweetWithGemini svc text st = (Throw e, st') ↔
     (∃ e0, Index.formatTweetWithGemini_try svc text st = (Throw e0, st')) ∧
     call_slice0 50 text = Throw e) ∧
  (Final.formatTweetWithGemini svc text st = (Throw e, st') ↔
     (∃ e0, Final.formatTweetWithGemini_try svc text st = (Throw e0, st')) ∧
     call_slice0 60 text = Throw e) ∧
  (∀ n, (∃ e', call_slice0 n text = Throw e') ↔ ∀ s, text ≠ VStr s).
Proof.
  intros Htext. split; [|split].
  - split.
    + intros [(a & _ & [=]) | (e0 & st1 & Htry & [Hslice ->]%formatTweetWithGemini_fallback_Throw)]
        %try_catch_inv. eauto.
    + intros [[e0 Htry] Hslice]. eapply try_catch_Throw; [exact Htry|].
      by apply formatTweetWithGemini_fallback_Throw.
  - split.
    + intros [(a & _ & [=]) | (e0 & st1 & Htry & [Hslice ->]%formatTweetWithGemini_fallback_Throw')]
        %try_catch_inv. eauto.
    + intros [[e0 Htry] Hslice]. eapply try_catch_Throw; [exact Htry|].
      by apply formatTweetWithGemini_fallback_Throw'.
  - intros n. split.
    + intros [e' [H _]%call_slice0_Throw]. exact H.
    + intros Hs. destruct text as [| |b|x|s| |]; try discriminate Htext; simpl; eauto.
      by destruct (Hs s).
Qed.

(** A tweet without [text], with the generative-text service unreachable. *)
Lemma formatTweetWithGemini_raises_witness :
  Index.formatTweetWithGemini (scripted offline) VUndefined (boot 0) =
    (Throw (TypeError "Cannot read properties of undefined (reading 'slice')"),
     called (boot 0) (CallGemini (Index.tweet_prompt (scripted offline) VUndefined)) 0).
Proof.
  apply (formatTweetWithGemini_raises (scripted offline) VUndefined (boot 0) _ _ eq_refl).
  split; [by exists network_down | reflexivity].
Defined.

Lemma prefix_backtick pat c rest :
  c ≠ "`"%char → String.prefix (String "`" pat) (String c rest) = false.
Proof.
  intros Hc. cbn [String.prefix].
  destruct (ascii_dec "`" c) as [Heq|]; [by destruct Hc|done].
Qed.

Lemma remove_all_no_backtick pat s :
  no_backtick s = true → remove_all (String "`" pat) s = s.
Proof.
  unfold remove_all. induction s as [|c s IH]; [done|].
  cbn [no_backtick]. rewrite andb_true_iff, negb_true_iff, bool_decide_eq_false.
  intros [Hc Hs]. cbn [remove_all_from].
  rewrite (prefix_backtick pat c s Hc). by rewrite IH.
Qed.

Lemma remove_either_no_backtick p1 p2 s :
  no_backtick s = true → remove_either (String "`" p1) (String "`" p2) s = s.
Proof.
  unfold remove_either. induction s as [|c s IH]; [done|].
  cbn [no_backtick]. rewrite andb_true_iff, negb_true_iff, bool_decide_eq_false.
  intros [Hc Hs]. cbn [remove_either_from].
  rewrite (prefix_backtick p1 c s Hc), (prefix_backtick p2 c s Hc). by rewrite IH.
Qed.

(** X21.  A response of the generative-text service that holds no backtick
    reaches [JSON.parse] with nothing removed: trimmed, and trimmed again,
    in the first variant, trimmed in the second. *)
Theorem fenceless_response_is_kept {World} (svc : Services World) (result : value)
    (s : string) :
  get result "text" = Return (VStr s) →
  (no_backtick (String_trim svc s) = true →
     Index.cleanedJsonString svc result =
       Return (String_trim svc (String_trim svc s))) ∧
  (no_backtick s = true →
     Final.cleaned svc result = Return (String_trim svc s)).
Proof.
  intros Htext. split; intros Hs.
  - unfold Index.cleanedJsonString. rewrite Htext. cbn [as_receiver].
    unfold fence, fence_json.
    rewrite (remove_all_no_backtick _ (String_trim svc s)) by done.
    by rewrite remove_all_no_backtick.
  - unfold Final.cleaned. rewrite Htext. cbn [as_receiver].
    unfold fence, fence_json. by rewrite remove_either_no_backtick.
Qed.

Lemma fenceless_response_is_kept_witness :
  Final.cleaned (scripted offline) (VObj [("text", VStr "{ }")]) = Return "{ }".
Proof.
  by apply (fenceless_response_is_kept (scripted offline) (VObj [("text", VStr "{ }")])
              "{ }" eq_refl).
Defined.

Lemma some_missing_complete v keys :
  Forall (present v) keys → Index.some_missing v keys = Return false.
Proof.
  induction 1 as [|k keys (x & Hk & Hx) _ IH]; simpl; [done|].
  by rewrite Hk, Hx.
Qed.

Lemma get_text_truthy result s :
  get result "text" = Return (VStr s) → truthy result = true.
Proof.
  destruct result as [| |b|n|s'|items|fields]; simpl; try done.
  all: by rewrite bool_decide_eq_false_2.
Qed.

(** X22.  When the generative-text service answers with a text and the text
    parses to a record whose six fields are present, the first variant
    returns this very record after the one call, reading no clock; the
    second variant returns whatever the text parses to, complete or not. *)
Theorem formatTweetWithGemini_parsed {World} (svc : Services World) (text result v : value)
    (s : string) (st : state World) (w : World) :
  get result "text" = Return (VStr s) →
  s ≠ "" →
  (generateContent svc (Index.tweet_prompt svc text) (world st) = (Return result, w) →
   JSON_parse svc (String_trim svc
                     (remove_all fence (remove_all fence_json (String_trim svc s))))
     = Return v →
   complete v →
   Index.formatTweetWithGemini svc text st =
     (Return v, called st (CallGemini (Index.tweet_prompt svc text)) w)) ∧
  (generateContent svc (Final.tweet_prompt svc text) (world st) = (Return result, w) →
   JSON_parse svc (String_trim svc (remove_either fence_json fence s)) = Return v →
   Final.formatTweetWithGemini svc text st =
     (Return v, called st (CallGemini (Final.tweet_prompt svc text)) w)).
Proof.
  intros Htext Hs.
  assert (truthy (VStr s) = true) as Htruthy.
  { simpl. by rewrite bool_decide_eq_false_2. }
  split.
  - intros Hcall Hparse Hv.
    apply try_catch_Return. unfold Index.formatTweetWithGemini_try.
    eapply bind_run_eq; [by apply external_run|].
    eapply bind_run_eq.
    { unfold lift, Index.no_text.
      by rewrite (get_text_truthy _ _ Htext), Htext, Htruthy. }
    cbn [negb].
    eapply bind_run_eq.
    { unfold lift, Index.cleanedJsonString. by rewrite Htext. }
    eapply bind_run_eq; [unfold lift; by rewrite Hparse|].
    eapply bind_run_eq; [unfold lift; by rewrite (some_missing_complete _ _ Hv)|].
    done.
  - intros Hcall Hparse.
    apply try_catch_Return. unfold Final.formatTweetWithGemini_try.
    eapply bind_run_eq; [by apply external_run|].
    eapply bind_run_eq.
    { unfold lift, Final.cleaned. by rewrite Htext. }
    unfold lift. by rewrite Hparse.
Qed.

Lemma formatTweetWithGemini_parsed_witness :
  Index.formatTweetWithGemini (scripted answering) (VStr "hello world") (boot 0) =
    (Return six_fields,
     called (boot 0)
       (CallGemini (Index.tweet_prompt (scripted answering) (VStr "hello world"))) 0).
Proof.
  apply (formatTweetWithGemini_parsed (scripted answering) (VStr "hello world")
           (VObj [("text", VStr "{ }")]) six_fields "{ }" (boot 0) 0);
    [reflexivity | discriminate | reflexivity | reflexivity |].
  repeat constructor; by eexists; split; vm_compute.
Defined.

(** ** What a refusal of the tweet API is reported as *)

(** X23.  When the tweet API answers the request for one id, but not with a
    tweet, [processTweetId] returns a failure for this id after the one
    call, with a reason fixed by the code: a response that is not [ok] is
    reported with its status in the first variant and without it in the
    second; a body that does not parse is reported with the parser's
    message; a payload the variant takes for empty is reported as
    "Not found or API error" in the first variant and as "Tweet not found"
    in the second. *)
Theorem processTweetId_refusals {World} (svc : Services World) (tweetId : value)
    (st : state World) (response : Response) (w : World) :
  fetch svc (tweet_url svc tweetId) (world st) = (Return response, w) →
  let st' := called st (CallFetch (tweet_url svc tweetId)) w in
  (ok response = false →
     Index.processTweetId svc tweetId st =
       (Return (Failure tweetId ("Twitter API request failed with status " +:+
                                 pretty (status response))), st') ∧
     Final.processTweetId svc tweetId st =
       (Return (Failure tweetId "Twitter API request failed"), st')) ∧
  (ok response = true → ∀ e, json response = Throw e →
     Index.processTweetId svc tweetId st = (Return (Failure tweetId (message e)), st') ∧
     Final.processTweetId svc tweetId st = (Return (Failure tweetId (message e)), st')) ∧
  (ok response = true → ∀ data, json response = Return data →
     (Index.not_found data = Return true →
        Index.processTweetId svc tweetId st =
          (Return (Failure tweetId "Not found or API error"), st')) ∧
     (truthy (first_opt (get_opt data "tweets")) = false →
        Final.processTweetId svc tweetId st =
          (Return (Failure tweetId "Tweet not found"), st'))).
Proof.
  intros Hfetch st'. apply (external_run (CallFetch (tweet_url svc tweetId))) in Hfetch.
  split; [|split].
  - intros Hok. split.
    + eapply try_catch_Throw.
      { apply bind_fail. unfold Index.processTweetId_try.
        eapply bind_run_eq; [exact Hfetch|]. rewrite Hok. reflexivity. }
      reflexivity.
    + eapply try_catch_Throw.
      { apply bind_fail. unfold Final.processTweetId_try.
        eapply bind_run_eq; [exact Hfetch|]. rewrite Hok. reflexivity. }
      reflexivity.
  - intros Hok e Hjson. split.
    + eapply try_catch_Throw.
      { apply bind_fail. unfold Index.processTweetId_try.
        eapply bind_run_eq; [exact Hfetch|]. rewrite Hok. cbn [negb].
        apply bind_fail. unfold lift. by rewrite Hjson. }
      reflexivity.
    + eapply try_catch_Throw.
      { apply bind_fail. unfold Final.processTweetId_try.
        eapply bind_run_eq; [exact Hfetch|]. rewrite Hok. cbn [negb].
        apply bind_fail. unfold lift. by rewrite Hjson. }
      reflexivity.
  - intros Hok data Hjson. split.
    + intros Hmissing. eapply try_catch_Throw.
      { apply bind_fail. unfold Index.processTweetId_try.
        eapply bind_run_eq; [exact Hfetch|]. rewrite Hok. cbn [negb].
        eapply bind_run_eq; [unfold lift; by rewrite Hjson|].
        eapply bind_run_eq; [unfold lift; by rewrite Hmissing|].
        reflexivity. }
      reflexivity.
    + intros Hnone. eapply try_catch_Throw.
      { apply bind_fail. unfold Final.processTweetId_try.
        eapply bind_run_eq; [exact Hfetch|]. rewrite Hok. cbn [negb].
        eapply bind_run_eq; [unfold lift; by rewrite Hjson|].
        rewrite Hnone. reflexivity. }
      reflexivity.
Qed.

Lemma processTweetId_refusals_witness :
  Index.processTweetId (scripted empty_payload) (VStr "7") (boot 0) =
    (Return (Failure (VStr "7") "Not found or API error"),
     called (boot 0) (CallFetch (tweet_url (scripted empty_payload) (VStr "7"))) 0) ∧
  Final.processTweetId (scripted empty_payload) (VStr "7") (boot 0) =
    (Return (Failure (VStr "7") "Tweet not found"),
     called (boot 0) (CallFetch (tweet_url (scripted empty_payload) (VStr "7"))) 0).
Proof.
  pose proof (processTweetId_refusals (scripted empty_payload) (VStr "7") (boot 0)
                {| ok := true; status := 200; json := Return (VObj []) |} 0 eq_refl)
    as (_ & _ & H).
  destruct (H eq_refl (VObj []) eq_refl) as [H1 H2].
  split; [by apply H1 | by apply H2].
Defined.
